(** * a11y-astro-components: behaviour scripts of the widgets

    A shallow embedding of the client scripts of [Modal.astro],
    [Accordion.astro], [DarkMode.astro] and [SkipLinks.astro].

    The scripts are DOM programs.  The document is a tree of element
    objects; every element object has an identity ([uid]) under which the
    scripts hold on to it, and every mutation ([classList.add],
    [setAttribute], [style.height = ..], [innerHTML = ..]) is an update of
    the object with that identity.  Script-level variables, the listener
    table, [localStorage], the console, the focus and the dialogs shown
    modally are fields of one [page] state, threaded through a
    state-and-exception monad [M]. *)

From Stdlib Require Import List String Ascii Bool Arith ZArith Lia.
From Stdlib Require Import DecimalString.
Import ListNotations.
Open Scope string_scope.

#[local] Set Warnings "-register-all".

(* ================================================================== *)
(** * The document tree *)
(* ================================================================== *)

Module Dom.

(** What an element carries besides its children.  [classes] is the
    [classList]; [attrs] holds the other content attributes in source
    order; [style_height] is [el.style.height] ([None]: never set);
    [layout_height] is what [getBoundingClientRect().height] yields for
    the element, in the text JavaScript prints for that number. *)
Record elem := mkElem {
  tag : string;
  classes : list string;
  attrs : list (string * string);
  style_height : option string;
  layout_height : string
}.

Inductive node := Node (u : nat) (e : elem) (ks : list node).

Definition uid (n : node) : nat := match n with Node u _ _ => u end.
Definition el (n : node) : elem := match n with Node _ e _ => e end.
Definition kids (n : node) : list node := match n with Node _ _ ks => ks end.

(** ** Attributes and classes of one element *)

Fixpoint assoc (k : string) (l : list (string * string)) : option string :=
  match l with
  | [] => None
  | (k', v) :: r => if String.eqb k' k then Some v else assoc k r
  end.

Fixpoint assoc_set (k v : string) (l : list (string * string))
  : list (string * string) :=
  match l with
  | [] => [(k, v)]
  | (k', v') :: r =>
      if String.eqb k' k then (k, v) :: r else (k', v') :: assoc_set k v r
  end.

Definition get_attr (a : string) (e : elem) : option string := assoc a (attrs e).

Definition has_attr (a : string) (e : elem) : bool :=
  match get_attr a e with Some _ => true | None => false end.

Definition attr_is (a v : string) (e : elem) : bool :=
  match get_attr a e with Some w => String.eqb w v | None => false end.

Definition has_class (c : string) (e : elem) : bool :=
  existsb (String.eqb c) (classes e).

Definition set_attr (a v : string) (e : elem) : elem :=
  mkElem (tag e) (classes e) (assoc_set a v (attrs e))
         (style_height e) (layout_height e).

Definition add_class (c : string) (e : elem) : elem :=
  mkElem (tag e)
         (if has_class c e then classes e else classes e ++ [c])
         (attrs e) (style_height e) (layout_height e).

Definition remove_class (c : string) (e : elem) : elem :=
  mkElem (tag e)
         (filter (fun c' => negb (String.eqb c c')) (classes e))
         (attrs e) (style_height e) (layout_height e).

Definition remove_attr (a : string) (e : elem) : elem :=
  mkElem (tag e) (classes e)
         (filter (fun kv => negb (String.eqb (fst kv) a)) (attrs e))
         (style_height e) (layout_height e).

Definition set_height (h : string) (e : elem) : elem :=
  mkElem (tag e) (classes e) (attrs e) (Some h) (layout_height e).

(** ** Traversals *)

(** Document order: a node, then its children's subtrees left to right. *)
Fixpoint preorder (n : node) : list node :=
  match n with Node _ _ ks => n :: flat_map preorder ks end.

Definition uids (n : node) : list nat := map uid (preorder n).

(** The same traversal, each node paired with its chain of ancestors,
    nearest first. *)
Fixpoint walk (anc : list node) (n : node) : list (list node * node) :=
  match n with Node _ _ ks => (anc, n) :: flat_map (walk (n :: anc)) ks end.

(** The object with identity [u], updated by [g]. *)
Fixpoint modify (u : nat) (g : node -> node) (n : node) : node :=
  match n with
  | Node v e ks => if Nat.eqb v u then g n else Node v e (map (modify u g) ks)
  end.

Definition on_elem (f : elem -> elem) (n : node) : node :=
  match n with Node u e ks => Node u (f e) ks end.

Definition with_kids (ks : list node) (n : node) : node :=
  match n with Node u e _ => Node u e ks end.

(** ** Selectors

    The selectors the scripts use: compound selectors over tag, class, id
    and attribute tests, one descendant combinator, and comma lists. *)

Inductive simple :=
| Tag (t : string)
| Class (c : string)
| Id (i : string)
| HasAttr (a : string)
| NotAttrEq (a v : string).   (* :not([a="v"]) *)

Definition compound := list simple.

Inductive complex :=
| Just (c : compound)
| Inside (a c : compound).    (* "a c": c below some element matching a *)

Definition selector := list complex.

Definition matches_simple (s : simple) (n : node) : bool :=
  match s with
  | Tag t => String.eqb (tag (el n)) t
  | Class c => has_class c (el n)
  | Id i => attr_is "id" i (el n)
  | HasAttr a => has_attr a (el n)
  | NotAttrEq a v => negb (attr_is a v (el n))
  end.

Definition matches_compound (c : compound) (n : node) : bool :=
  forallb (fun s => matches_simple s n) c.

Definition matches_complex (x : complex) (anc : list node) (n : node) : bool :=
  match x with
  | Just c => matches_compound c n
  | Inside a c => matches_compound c n && existsb (matches_compound a) anc
  end.

Definition matches (sel : selector) (p : list node * node) : bool :=
  existsb (fun x => matches_complex x (fst p) (snd p)) sel.

(** [el.closest(sel)] over the chain [el :: ancestors]. *)
Fixpoint closest_in (sel : selector) (chain : list node) : option node :=
  match chain with
  | [] => None
  | n :: rest => if matches sel (rest, n) then Some n else closest_in sel rest
  end.

(** ** Identifiers inside selector text

    [`#${x}`] and [`.${x} a`] splice a run-time string into selector
    text.  The model reads the result as an id (class) selector when the
    string is a plain CSS identifier: a letter or underscore followed by
    letters, digits, hyphens and underscores.  Other strings make
    selector text whose meaning is outside this model. *)

Definition between (lo hi : nat) (c : ascii) : bool :=
  Nat.leb lo (nat_of_ascii c) && Nat.leb (nat_of_ascii c) hi.

Definition ident_start (c : ascii) : bool :=
  between 65 90 c || between 97 122 c || Nat.eqb (nat_of_ascii c) 95.

Definition ident_char (c : ascii) : bool :=
  ident_start c || between 48 57 c || Nat.eqb (nat_of_ascii c) 45.

Definition css_ident (s : string) : bool :=
  match s with
  | EmptyString => false
  | String c r => ident_start c && forallb ident_char (list_ascii_of_string r)
  end.

End Dom.

(* ================================================================== *)
(** * The page: state shared by the scripts *)
(* ================================================================== *)

Module Page.
Import Dom.

(** The closures the scripts hand to [addEventListener] (or assign to a
    [window] property), named after what they run.  A closure that
    captures a dialog carries it. *)
Inductive handler :=
| ModalTriggerClick (modal : nat)  (* () => openModal(modal) *)
| ModalCloseModal                  (* closeModal *)
| ModalTrapFocus (modal : nat)     (* (e) => trapFocus(e, modal) *)
| ModalEscape                      (* event.key === "Escape" ? closeModal() : undefined *)
| ModalBackdropClick               (* () => closeModal() *)
| ModalInnerClick                  (* (event) => event.stopPropagation() *)
| ModalAfterSwap
| AccordionEscape
| AccordionArrows
| AccordionToggle                  (* toggleAccordionItem *)
| AccordionResize                  (* recalculateHeight *)
| DarkModeClick
| DarkModeAfterSwap
| SkipLinkKeydown.

Inductive evtype := Keydown | Click | AfterSwap | Resize.

(** Where a listener sits: on the [document] or on an element. *)
Inductive target := OnDocument | OnElement (u : nat).

Record listener := mkListener {
  lid : nat;                   (* registration number *)
  l_target : target;
  l_type : evtype;
  l_handler : handler;
  l_signal : option nat        (* the AbortController of [{ signal }] *)
}.

Record event := mkEvent {
  ev_type : evtype;
  ev_target : option nat;      (* [None]: dispatched at the document *)
  ev_key : string;
  ev_shiftKey : bool
}.

Inductive exn :=
| TypeError                        (* a property of null or undefined *)
| Error (msg : string)             (* throw new Error(msg) *)
| InvalidStateError                (* showModal() on a dialog out of the document *)
| SelectorOutsideModel (text : string).

Record dom_state := mkDom {
  doc : node;                      (* the root element of the document *)
  detached : list node;            (* trees taken out by a view swap *)
  next_uid : nat;
  activeElement : option nat;      (* the focused element, if any *)
  focus_log : list nat;            (* the elements the focus moved to, in order *)
  top_layer : list (nat * option nat)
    (* the dialogs shown by [showModal()] and not closed since, the last
       shown first, each with the element that had the focus then *)
}.

Record event_state := mkEvents {
  listeners : list listener;
  next_lid : nat;
  next_controller : nat;
  aborted : list nat;
  defaultPrevented : bool;
  propagationStopped : bool
}.

Record env_state := mkEnv {
  storage : list (string * string);   (* localStorage *)
  prefersDark : bool;                 (* matchMedia("(prefers-color-scheme: dark)").matches *)
  console : list string;              (* console.warn *)
  uncaught : list exn                 (* exceptions that left a listener *)
}.

(** Script-level bindings, one group per script, and the [window]
    properties the scripts assign. *)
Record script_vars := mkVars {
  modals : list nat;
  trapFocusController : option nat;
  keydownController : option nat;
  accordionItems : list nat;
  darkMode : option string;
  darkModeToggle : option nat;
  skipLink : option nat;
  window_close : option handler;
  window_toggleAccordionItem : option handler;
  window_onresize : option handler
}.

Record page := mkPage {
  dom : dom_state;
  events : event_state;
  env : env_state;
  vars : script_vars
}.

Definition with_dom (f : dom_state -> dom_state) (p : page) : page :=
  mkPage (f (dom p)) (events p) (env p) (vars p).
Definition with_events (f : event_state -> event_state) (p : page) : page :=
  mkPage (dom p) (f (events p)) (env p) (vars p).
Definition with_env (f : env_state -> env_state) (p : page) : page :=
  mkPage (dom p) (events p) (f (env p)) (vars p).
Definition with_vars (f : script_vars -> script_vars) (p : page) : page :=
  mkPage (dom p) (events p) (env p) (f (vars p)).

(** ** The monad: state, and exceptions that keep the state *)

Inductive res (A : Type) :=
| Ok (a : A)
| Throw (e : exn).
Arguments Ok {A} a.
Arguments Throw {A} e.

Definition M (A : Type) : Type := page -> res A * page.

Definition ret {A} (a : A) : M A := fun p => (Ok a, p).

Definition bind {A B} (c : M A) (k : A -> M B) : M B :=
  fun p => match c p with
           | (Ok a, p') => k a p'
           | (Throw e, p') => (Throw e, p')
           end.

Definition throw {A} (e : exn) : M A := fun p => (Throw e, p).
Definition gets {A} (f : page -> A) : M A := fun p => (Ok (f p), p).
Definition update (f : page -> page) : M unit := fun p => (Ok tt, f p).

Declare Scope js_scope.
Delimit Scope js_scope with js.
Notation "x <- c ;; k" := (bind c (fun x => k))
  (at level 100, c at next level, right associativity) : js_scope.
Notation "c ;; k" := (bind c (fun _ => k))
  (at level 100, right associativity) : js_scope.
Open Scope js_scope.

(** [list.forEach(f)]: left to right, an exception ends the loop. *)
Fixpoint forEach {A} (l : list A) (f : A -> M unit) : M unit :=
  match l with
  | [] => ret tt
  | x :: r => f x ;; forEach r f
  end.

(** Member access on a possibly-null reference. *)
Definition deref {A} (o : option A) : M A :=
  match o with Some a => ret a | None => throw TypeError end.

(** A value spliced into a template literal: [null] prints as "null". *)
Definition template (o : option string) : string :=
  match o with Some s => s | None => "null" end.

(** ** Finding element objects *)

Definition forest (d : dom_state) : list node := doc d :: detached d.

Definition everything (d : dom_state) : list (list node * node) :=
  flat_map (walk []) (forest d).

Definition locate (u : nat) (d : dom_state) : option (list node * node) :=
  find (fun p => Nat.eqb (uid (snd p)) u) (everything d).

Definition elem_of (u : nat) (d : dom_state) : option elem :=
  option_map (fun p => el (snd p)) (locate u d).

(** [el.isConnected] *)
Definition connected (u : nat) (d : dom_state) : bool :=
  existsb (Nat.eqb u) (uids (doc d)).

Definition first_uid (l : list (list node * node)) : option nat :=
  match l with [] => None | p :: _ => Some (uid (snd p)) end.

(** [document.querySelectorAll(sel)], in document order. *)
Definition doc_query_all (sel : selector) (d : dom_state) : list nat :=
  map (fun p => uid (snd p)) (filter (matches sel) (walk [] (doc d))).

Definition doc_query (sel : selector) (d : dom_state) : option nat :=
  first_uid (filter (matches sel) (walk [] (doc d))).

(** The descendants of an element, with their ancestor chains. *)
Definition below (u : nat) (d : dom_state) : list (list node * node) :=
  match locate u d with
  | Some (anc, n) => flat_map (walk (n :: anc)) (kids n)
  | None => []
  end.

(** [el.querySelectorAll(sel)] and [el.querySelector(sel)] *)
Definition el_query_all (u : nat) (sel : selector) (d : dom_state) : list nat :=
  map (fun p => uid (snd p)) (filter (matches sel) (below u d)).

Definition el_query (u : nat) (sel : selector) (d : dom_state) : option nat :=
  first_uid (filter (matches sel) (below u d)).

(** [el.closest(sel)] *)
Definition closest_of (u : nat) (sel : selector) (d : dom_state) : option nat :=
  match locate u d with
  | Some (anc, n) => option_map uid (closest_in sel (n :: anc))
  | None => None
  end.

(** [document.body]: the body child of the root element. *)
Definition body_of (d : dom_state) : option nat :=
  option_map uid (find (fun k => String.eqb (tag (el k)) "body") (kids (doc d))).

(** The chain an event bubbles along: the target, its ancestors and,
    for a target in the document, the document. *)
Definition event_path (t : option nat) (d : dom_state) : list target :=
  match t with
  | None => [OnDocument]
  | Some u =>
      match locate u d with
      | Some (anc, n) =>
          map (fun a => OnElement (uid a)) (n :: anc)
          ++ (if connected u d then [OnDocument] else [])
      | None => [OnElement u]
      end
  end.

(** ** Updating element objects *)

Fixpoint map_elems (h : nat -> elem -> elem) (n : node) : node :=
  match n with Node v e ks => Node v (h v e) (map (map_elems h) ks) end.

Definition at_uid (u : nat) (f : elem -> elem) (v : nat) (e : elem) : elem :=
  if Nat.eqb v u then f e else e.

Fixpoint replace_kids (u : nat) (new : list node) (n : node) : node :=
  match n with
  | Node v e ks =>
      if Nat.eqb v u then Node v e new
      else Node v e (map (replace_kids u new) ks)
  end.

Definition update_elem (u : nat) (f : elem -> elem) (d : dom_state) : dom_state :=
  mkDom (map_elems (at_uid u f) (doc d))
        (map (map_elems (at_uid u f)) (detached d))
        (next_uid d) (activeElement d) (focus_log d) (top_layer d).

Definition set_kids (u : nat) (new : list node) (fresh : nat) (d : dom_state)
  : dom_state :=
  mkDom (replace_kids u new (doc d))
        (map (replace_kids u new) (detached d))
        (next_uid d + fresh) (activeElement d) (focus_log d) (top_layer d).

Definition set_active (u : nat) (d : dom_state) : dom_state :=
  mkDom (doc d) (detached d) (next_uid d) (Some u) (focus_log d ++ [u])
        (top_layer d).

(** ** Which elements take the focus

    What HTML lets take the focus, as far as the tree decides it: an
    element of the document that is rendered, not inert, and of a kind
    that can be focused.  The style sheets of a page are not part of the
    tree: an element counts as rendered unless the markup itself hides
    it. *)

(** An element and its ancestors, nearest first. *)
Definition chain_of (u : nat) (d : dom_state) : list node :=
  match locate u d with Some (anc, n) => n :: anc | None => [] end.

Definition tag_is (t : string) (n : node) : bool := String.eqb (tag (el n)) t.

(** [child] is the first child of [parent] with tag [t]. *)
Definition first_child (t : string) (parent child : node) : bool :=
  match find (tag_is t) (kids parent) with
  | Some k => Nat.eqb (uid k) (uid child)
  | None => false
  end.

(** The user agent's style sheet: [hidden] hides an element, a [dialog]
    without [open] is not displayed, a [details] without [open] shows
    its first [summary] and nothing else. *)
Definition hides_itself (n : node) : bool :=
  has_attr "hidden" (el n)
  || (tag_is "dialog" n && negb (has_attr "open" (el n))).

Definition hides_child (parent child : node) : bool :=
  tag_is "details" parent && negb (has_attr "open" (el parent))
  && negb (first_child "summary" parent child).

Fixpoint rendered_chain (chain : list node) : bool :=
  match chain with
  | [] => true
  | n :: rest =>
      negb (hides_itself n)
      && match rest with
         | a :: _ => negb (hides_child a n)
         | [] => true
         end
      && rendered_chain rest
  end.

(** The dialog the document is blocked by: the last one shown modally
    that is in the document. *)
Definition blocking (d : dom_state) : option nat :=
  option_map fst (find (fun s => connected (fst s) d) (top_layer d)).

(** The part of a chain from its head up to the element [m]. *)
Fixpoint up_to (m : nat) (chain : list node) : option (list node) :=
  match chain with
  | [] => None
  | n :: rest =>
      if Nat.eqb (uid n) m then Some [n]
      else option_map (cons n) (up_to m rest)
  end.

(** Inert: outside the blocking dialog, or under an [inert] attribute
    (one above the blocking dialog does not reach into it). *)
Definition is_inert (u : nat) (d : dom_state) : bool :=
  let marked := existsb (fun n => has_attr "inert" (el n)) in
  match blocking d with
  | Some m =>
      match up_to m (chain_of u d) with
      | Some part => marked part
      | None => true
      end
  | None => marked (chain_of u d)
  end.

Definition form_control (n : node) : bool :=
  existsb (String.eqb (tag (el n))) ["button"; "input"; "select"; "textarea"].

(** Some [fieldset] up the chain is disabled, the element not being in
    that fieldset's first [legend]. *)
Fixpoint in_disabled_fieldset (chain : list node) : bool :=
  match chain with
  | [] => false
  | n :: rest =>
      match rest with
      | a :: _ => tag_is "fieldset" a && has_attr "disabled" (el a)
                  && negb (first_child "legend" a n)
      | [] => false
      end
      || in_disabled_fieldset rest
  end.

Definition is_digit (c : ascii) : bool := between 48 57 c.

Definition is_space (c : ascii) : bool :=
  existsb (Nat.eqb (nat_of_ascii c)) [9; 10; 12; 13; 32].

Fixpoint skip_spaces (s : string) : string :=
  match s with
  | String c r => if is_space c then skip_spaces r else s
  | EmptyString => s
  end.

Fixpoint digits_of (s : string) : list ascii :=
  match s with
  | String c r => if is_digit c then c :: digits_of r else []
  | EmptyString => []
  end.

(** HTML's rules for parsing integers, as far as the sign: [None] when
    the text is no integer, [Some true] for a negative one. *)
Definition integer_sign (s : string) : option bool :=
  match skip_spaces s with
  | EmptyString => None
  | String c r =>
      let minus := Nat.eqb (nat_of_ascii c) 45 in
      let plus := Nat.eqb (nat_of_ascii c) 43 in
      match digits_of (if minus || plus then r else String c r) with
      | [] => None
      | ds => Some (minus && existsb (fun x => negb (Nat.eqb (nat_of_ascii x) 48)) ds)
      end
  end.

(** The [tabindex] of an element, when it has one that is an integer. *)
Definition tabindex_sign (e : elem) : option bool :=
  match get_attr "tabindex" e with
  | Some s => integer_sign s
  | None => None
  end.

Definition lower (s : string) : string :=
  string_of_list_ascii
    (map (fun c => if between 65 90 c then ascii_of_nat (nat_of_ascii c + 32) else c)
         (list_ascii_of_string s)).

Definition attr_in (a : string) (values : list string) (e : elem) : bool :=
  match get_attr a e with
  | Some v => existsb (String.eqb (lower v)) values
  | None => false
  end.

(** The kinds of element that can be focused: form controls that are not
    disabled (a hidden input is not rendered), and otherwise elements
    with an integer [tabindex], links with [href], the first [summary]
    of a [details], frames, media elements with controls, editing
    hosts. *)
Definition focusable_kind (chain : list node) : bool :=
  match chain with
  | [] => false
  | n :: rest =>
      if form_control n then
        negb (has_attr "disabled" (el n))
        && negb (in_disabled_fieldset chain)
        && negb (tag_is "input" n && attr_in "type" ["hidden"] (el n))
      else
        match tabindex_sign (el n) with Some _ => true | None => false end
        || ((tag_is "a" n || tag_is "area" n) && has_attr "href" (el n))
        || (tag_is "summary" n
            && match rest with
               | a :: _ => tag_is "details" a && first_child "summary" a n
               | [] => false
               end)
        || tag_is "iframe" n
        || ((tag_is "audio" n || tag_is "video" n) && has_attr "controls" (el n))
        || attr_in "contenteditable" [EmptyString; "true"; "plaintext-only"] (el n)
  end.

Definition can_focus (u : nat) (d : dom_state) : bool :=
  connected u d
  && rendered_chain (chain_of u d)
  && negb (is_inert u d)
  && focusable_kind (chain_of u d).

(** Reached by the Tab key: focusable, the [tabindex] not negative. *)
Definition sequentially_focusable (u : nat) (d : dom_state) : bool :=
  can_focus u d
  && match elem_of u d with
     | Some e => match tabindex_sign e with Some true => false | _ => true end
     | None => false
     end.

(** [document.activeElement] as an element: the focused element while
    it is in the document ([None]: the body). *)
Definition active (d : dom_state) : option nat :=
  match activeElement d with
  | Some u => if connected u d then Some u else None
  | None => None
  end.

(** The focus moves to [u], unless it is there already. *)
Definition move_focus (u : nat) (d : dom_state) : dom_state :=
  match active d with
  | Some a => if Nat.eqb a u then d else set_active u d
  | None => set_active u d
  end.

(** The focusing steps for [u]: nothing happens on an element that
    cannot take the focus. *)
Definition focused (u : nat) (d : dom_state) : dom_state :=
  if can_focus u d then move_focus u d else d.

(** ** Dialogs shown modally *)

Definition shown_modally (u : nat) (d : dom_state) : bool :=
  existsb (fun s => Nat.eqb (fst s) u) (top_layer d).

Definition previously_focused (u : nat) (d : dom_state) : option nat :=
  match find (fun s => Nat.eqb (fst s) u) (top_layer d) with
  | Some s => snd s
  | None => None
  end.

Definition push_modal (u : nat) (d : dom_state) : dom_state :=
  mkDom (doc d) (detached d) (next_uid d) (activeElement d) (focus_log d)
        ((u, active d) :: top_layer d).

Definition pop_modal (u : nat) (d : dom_state) : dom_state :=
  mkDom (doc d) (detached d) (next_uid d) (activeElement d) (focus_log d)
        (filter (fun s => negb (Nat.eqb (fst s) u)) (top_layer d)).

Definition has_attr_at (u : nat) (a : string) (d : dom_state) : bool :=
  match elem_of u d with Some e => has_attr a e | None => false end.

(** Where the focus goes when a dialog is shown: the dialog when it
    carries [autofocus], else its first focusable descendant carrying
    [autofocus], else its first descendant the Tab key reaches, else the
    dialog. *)
Definition dialog_focus_target (u : nat) (d : dom_state) : nat :=
  let inside := map (fun p => uid (snd p)) (below u d) in
  if has_attr_at u "autofocus" d then u
  else
    match find (fun x => has_attr_at x "autofocus" d && can_focus x d) inside with
    | Some x => x
    | None =>
        match find (fun x => sequentially_focusable x d) inside with
        | Some x => x
        | None => u
        end
    end.

End Page.

(* ================================================================== *)
(** * The platform calls the scripts make *)
(* ================================================================== *)

Module Api.
Import Dom Page.

(** ** Queries *)

Definition querySelectorAll (sel : selector) : M (list nat) :=
  gets (fun p => doc_query_all sel (dom p)).

Definition querySelector (sel : selector) : M (option nat) :=
  gets (fun p => doc_query sel (dom p)).

Definition querySelectorAll_in (u : nat) (sel : selector) : M (list nat) :=
  gets (fun p => el_query_all u sel (dom p)).

Definition querySelector_in (u : nat) (sel : selector) : M (option nat) :=
  gets (fun p => el_query u sel (dom p)).

Definition closest (u : nat) (sel : selector) : M (option nat) :=
  gets (fun p => closest_of u sel (dom p)).

(** [document.querySelector(`#${x}`)] *)
Definition querySelector_id (x : string) : M (option nat) :=
  if css_ident x then querySelector [Just [Id x]]
  else throw (SelectorOutsideModel ("#" ++ x)).

Definition document_body : M (option nat) := gets (fun p => body_of (dom p)).

Definition document_activeElement : M (option nat) :=
  gets (fun p => active (dom p)).

(** [a === b] between [document.activeElement] and an array slot: the
    active element is an object ([None] stands for the body), an empty
    slot is [undefined], so two [None]s are not the same reference. *)
Definition same_ref (a b : option nat) : bool :=
  match a, b with
  | Some x, Some y => Nat.eqb x y
  | _, _ => false
  end.

(** ** Reading and writing one element *)

Definition attr_of (u : nat) (a : string) (d : dom_state) : option string :=
  match elem_of u d with Some e => get_attr a e | None => None end.

Definition class_on (u : nat) (c : string) (d : dom_state) : bool :=
  match elem_of u d with Some e => has_class c e | None => false end.

Definition height_of (u : nat) (d : dom_state) : option string :=
  match elem_of u d with Some e => style_height e | None => None end.

Definition getAttribute (u : nat) (a : string) : M (option string) :=
  gets (fun p => attr_of u a (dom p)).

Definition hasAttribute (u : nat) (a : string) : M bool :=
  gets (fun p => match attr_of u a (dom p) with Some _ => true | None => false end).

Definition setAttribute (u : nat) (a v : string) : M unit :=
  update (with_dom (update_elem u (set_attr a v))).

Definition removeAttribute (u : nat) (a : string) : M unit :=
  update (with_dom (update_elem u (remove_attr a))).

Definition classList_add (u : nat) (c : string) : M unit :=
  update (with_dom (update_elem u (add_class c))).

Definition classList_remove (u : nat) (c : string) : M unit :=
  update (with_dom (update_elem u (remove_class c))).

Definition classList_contains (u : nat) (c : string) : M bool :=
  gets (fun p => class_on u c (dom p)).

(** What the style declaration keeps of a length written to it: a zero
    written without a unit is kept as "0px".  The scripts write that and
    a number followed by "px". *)
Definition css_length (h : string) : string :=
  if String.eqb h "0" then "0px" else h.

(** [el.style.height = h] *)
Definition set_style_height (u : nat) (h : string) : M unit :=
  update (with_dom (update_elem u (set_height (css_length h)))).

(** [el.getBoundingClientRect().height], as text *)
Definition rect_height (u : nat) : M string :=
  gets (fun p => match elem_of u (dom p) with
                 | Some e => layout_height e
                 | None => "0"
                 end).

(** [el.innerHTML = markup]: the children are replaced by the parsed
    markup, given as the nodes it makes from [count] fresh identities.
    The old children are dropped: no script holds on to them. *)
Definition set_innerHTML (u : nat) (markup : nat -> list node) (count : nat)
  : M unit :=
  update (with_dom (fun d => set_kids u (markup (next_uid d)) count d)).

(** [el.parentElement] *)
Definition parentElement (u : nat) : M (option nat) :=
  gets (fun p => match locate u (dom p) with
                 | Some (a :: _, _) => Some (uid a)
                 | _ => None
                 end).

(** [el.focus()]: the focus moves to the element when it can take it;
    on any other element the call does nothing. *)
Definition focus (u : nat) : M unit := update (with_dom (focused u)).

(** A method of [HTMLDialogElement] called on [u]: an element of
    another kind has no such method. *)
Definition dialog_method (u : nat) : M unit :=
  t <- gets (fun p => option_map tag (elem_of u (dom p))) ;;
  match t with
  | Some g => if String.eqb g "dialog" then ret tt else throw TypeError
  | None => throw TypeError
  end.

(** [dialog.showModal()]: returns on a dialog that is shown modally,
    throws on one that is open otherwise or is outside the document;
    else the dialog gets [open], blocks the document, remembers the
    focused element and takes the focus into itself. *)
Definition showModal (u : nat) : M unit :=
  dialog_method u ;;
  o <- hasAttribute u "open" ;;
  m <- gets (fun p => shown_modally u (dom p)) ;;
  c <- gets (fun p => connected u (dom p)) ;;
  if o && m then ret tt
  else if o then throw InvalidStateError
  else if negb c then throw InvalidStateError
  else
    setAttribute u "open" EmptyString ;;
    update (with_dom (push_modal u)) ;;
    update (with_dom (fun d => move_focus (dialog_focus_target u d) d)).

(** [dialog.close()]: nothing on a dialog without [open]; else [open]
    goes, the dialog stops blocking the document, and the element that
    had the focus when the dialog was shown modally is focused again. *)
Definition close (u : nat) : M unit :=
  dialog_method u ;;
  o <- hasAttribute u "open" ;;
  if o then
    removeAttribute u "open" ;;
    prev <- gets (fun p => previously_focused u (dom p)) ;;
    update (with_dom (pop_modal u)) ;;
    match prev with
    | Some e => focus e
    | None => ret tt
    end
  else ret tt.

(** ** Listeners *)

Definition target_eqb (a b : target) : bool :=
  match a, b with
  | OnDocument, OnDocument => true
  | OnElement x, OnElement y => Nat.eqb x y
  | _, _ => false
  end.

Definition evtype_eqb (a b : evtype) : bool :=
  match a, b with
  | Keydown, Keydown | Click, Click | AfterSwap, AfterSwap | Resize, Resize => true
  | _, _ => false
  end.

(** Callbacks that are one function object wherever they are passed;
    every other callback is an arrow function made anew at each call of
    [addEventListener]. *)
Definition same_function (a b : handler) : bool :=
  match a, b with
  | ModalCloseModal, ModalCloseModal => true
  | _, _ => false
  end.

Definition already_listening (t : target) (ty : evtype) (h : handler)
  (ls : list listener) : bool :=
  existsb (fun l => target_eqb (l_target l) t && evtype_eqb (l_type l) ty
                    && same_function (l_handler l) h) ls.

Definition signal_aborted (sig : option nat) (e : event_state) : bool :=
  match sig with
  | Some c => existsb (Nat.eqb c) (aborted e)
  | None => false
  end.

(** [target.addEventListener(type, h, { signal })]: nothing is added
    under an aborted signal, nor when the same function object listens
    there already. *)
Definition add_listener (t : target) (ty : evtype) (h : handler)
  (sig : option nat) (e : event_state) : event_state :=
  if signal_aborted sig e || already_listening t ty h (listeners e) then e
  else mkEvents (listeners e ++ [mkListener (next_lid e) t ty h sig])
                (S (next_lid e)) (next_controller e) (aborted e)
                (defaultPrevented e) (propagationStopped e).

Definition addEventListener (t : target) (ty : evtype) (h : handler)
  (sig : option nat) : M unit :=
  update (with_events (add_listener t ty h sig)).

(** [new AbortController()] *)
Definition newAbortController : M nat :=
  c <- gets (fun p => next_controller (events p)) ;;
  update (with_events (fun e =>
    mkEvents (listeners e) (next_lid e) (S (next_controller e)) (aborted e)
             (defaultPrevented e) (propagationStopped e))) ;;
  ret c.

Definition guarded_by (c : nat) (l : listener) : bool :=
  match l_signal l with Some c' => Nat.eqb c' c | None => false end.

(** [controller.abort()]: the listeners under its signal are removed. *)
Definition abort_controller (c : nat) (e : event_state) : event_state :=
  mkEvents (filter (fun l => negb (guarded_by c l)) (listeners e))
           (next_lid e) (next_controller e) (c :: aborted e)
           (defaultPrevented e) (propagationStopped e).

(** [controller?.abort()] *)
Definition abort (o : option nat) : M unit :=
  match o with
  | Some c => update (with_events (abort_controller c))
  | None => ret tt
  end.

Definition preventDefault : M unit :=
  update (with_events (fun e =>
    mkEvents (listeners e) (next_lid e) (next_controller e) (aborted e)
             true (propagationStopped e))).

Definition stopPropagation : M unit :=
  update (with_events (fun e =>
    mkEvents (listeners e) (next_lid e) (next_controller e) (aborted e)
             (defaultPrevented e) true)).

(** ** Storage, media query, console *)

Definition localStorage_getItem (k : string) : M (option string) :=
  gets (fun p => assoc k (storage (env p))).

Definition localStorage_setItem (k v : string) : M unit :=
  update (with_env (fun e =>
    mkEnv (assoc_set k v (storage e)) (prefersDark e) (console e)
          (uncaught e))).

Definition matchMedia_prefers_dark : M bool :=
  gets (fun p => prefersDark (env p)).

Definition console_warn (s : string) : M unit :=
  update (with_env (fun e =>
    mkEnv (storage e) (prefersDark e) (console e ++ [s]) (uncaught e))).

End Api.

(* ================================================================== *)
(** * Modal.astro *)
(* ================================================================== *)

Module Modal.
Import Dom Page Api.

Definition set_trapFocusController (c : option nat) : M unit :=
  update (with_vars (fun v =>
    mkVars (modals v) c (keydownController v) (accordionItems v) (darkMode v)
           (darkModeToggle v) (skipLink v) (window_close v)
           (window_toggleAccordionItem v) (window_onresize v))).

Definition set_keydownController (c : option nat) : M unit :=
  update (with_vars (fun v =>
    mkVars (modals v) (trapFocusController v) c (accordionItems v) (darkMode v)
           (darkModeToggle v) (skipLink v) (window_close v)
           (window_toggleAccordionItem v) (window_onresize v))).

Definition set_modals (ms : list nat) : M unit :=
  update (with_vars (fun v =>
    mkVars ms (trapFocusController v) (keydownController v) (accordionItems v)
           (darkMode v) (darkModeToggle v) (skipLink v) (window_close v)
           (window_toggleAccordionItem v) (window_onresize v))).

Definition set_window_close (h : handler) : M unit :=
  update (with_vars (fun v =>
    mkVars (modals v) (trapFocusController v) (keydownController v)
           (accordionItems v) (darkMode v) (darkModeToggle v) (skipLink v)
           (Some h) (window_toggleAccordionItem v) (window_onresize v))).

(** 'a, button, input, textarea, select, details,[tabindex]:not([tabindex="-1"])' *)
Definition focusable_selector : selector :=
  [ Just [Tag "a"]; Just [Tag "button"]; Just [Tag "input"];
    Just [Tag "textarea"]; Just [Tag "select"]; Just [Tag "details"];
    Just [HasAttr "tabindex"; NotAttrEq "tabindex" "-1"] ].

Definition focusables_of (element : nat) (d : dom_state) : list nat :=
  filter (fun u => match attr_of u "disabled" d with
                   | Some _ => false
                   | None => true
                   end)
         (el_query_all element focusable_selector d).

Definition getKeyboardFocusableElements (element : nat) : M (list nat) :=
  gets (fun p => focusables_of element (dom p)).

(** [focusables[focusables.length - 1]] *)
Definition last_of (l : list nat) : option nat := nth_error l (List.length l - 1).

Definition trapFocus (event : event) (modal : nat) : M unit :=
  focusables <- getKeyboardFocusableElements modal ;;
  let firstFocusable := nth_error focusables 0 in
  let lastFocusable := last_of focusables in
  a <- document_activeElement ;;
  (if same_ref a lastFocusable && String.eqb (ev_key event) "Tab"
      && negb (ev_shiftKey event)
   then preventDefault ;; f <- deref firstFocusable ;; focus f
   else ret tt) ;;
  a' <- document_activeElement ;;
  (if same_ref a' firstFocusable && String.eqb (ev_key event) "Tab"
      && ev_shiftKey event
   then preventDefault ;; l <- deref lastFocusable ;; focus l
   else ret tt).

Definition openModal (modal : nat) : M unit :=
  modalTitle <- querySelector_in modal [Just [Tag "h3"]] ;;
  modalInner <- querySelector_in modal [Just [Class "modal__inner"]] ;;
  showModal modal ;;
  t <- deref modalTitle ;;
  focus t ;;
  tc <- newAbortController ;;
  set_trapFocusController (Some tc) ;;
  kc <- newAbortController ;;
  set_keydownController (Some kc) ;;
  addEventListener OnDocument Keydown (ModalTrapFocus modal) (Some tc) ;;
  addEventListener (OnElement modal) Keydown ModalEscape (Some kc) ;;
  addEventListener (OnElement modal) Click ModalBackdropClick (Some kc) ;;
  i <- deref modalInner ;;
  addEventListener (OnElement i) Click ModalInnerClick (Some kc).

(** The body of the [forEach] in [closeModal]. *)
Definition closeOne (modal : nat) : M unit :=
  modalId <- getAttribute modal "aria-labelledby" ;;
  modalTrigger <- querySelector_id (template modalId) ;;
  t <- deref modalTrigger ;;
  focus t ;;
  close modal ;;
  tc <- gets (fun p => trapFocusController (vars p)) ;;
  abort tc ;;
  kc <- gets (fun p => keydownController (vars p)) ;;
  abort kc.

Definition closeModal : M unit :=
  ms <- gets (fun p => modals (vars p)) ;;
  forEach ms closeOne.

Definition quote : string := String (ascii_of_nat 34) EmptyString.
Definition newline : string := String (ascii_of_nat 10) EmptyString.

Definition trigger_not_found (modalId : option string) : exn :=
  Error ("Trigger element not found. " ++ newline ++ newline
         ++ "      Did you forget to add a trigger element with id: "
         ++ quote ++ template modalId ++ quote ++ "?").

(** The body of the binding loop; the script has it twice, at top level
    and in the [astro:after-swap] listener. *)
Definition bindOne (modal : nat) : M unit :=
  modalId <- getAttribute modal "aria-labelledby" ;;
  modalCloseButton <-
    querySelector_in modal [Inside [Class "modal__close"] [Tag "button"]] ;;
  modalTrigger <- querySelector_id (template modalId) ;;
  match modalTrigger with
  | None => throw (trigger_not_found modalId)
  | Some t =>
      addEventListener (OnElement t) Click (ModalTriggerClick modal) None ;;
      b <- deref modalCloseButton ;;
      addEventListener (OnElement b) Click ModalCloseModal None
  end.

(** The [astro:after-swap] listener: its [modals] is a local of its own. *)
Definition afterSwap : M unit :=
  ms <- querySelectorAll [Just [Class "modal"]] ;;
  forEach ms bindOne.

(** The script, top to bottom. *)
Definition script : M unit :=
  ms <- querySelectorAll [Just [Class "modal"]] ;;
  set_modals ms ;;
  forEach ms bindOne ;;
  set_window_close ModalCloseModal ;;
  addEventListener OnDocument AfterSwap ModalAfterSwap None.

End Modal.

(* ================================================================== *)
(** * Accordion.astro *)
(* ================================================================== *)

Module Accordion.
Import Dom Page Api.

Definition set_accordionItems (l : list nat) : M unit :=
  update (with_vars (fun v =>
    mkVars (modals v) (trapFocusController v) (keydownController v) l
           (darkMode v) (darkModeToggle v) (skipLink v) (window_close v)
           (window_toggleAccordionItem v) (window_onresize v))).

Definition set_window_toggleAccordionItem (h : handler) : M unit :=
  update (with_vars (fun v =>
    mkVars (modals v) (trapFocusController v) (keydownController v)
           (accordionItems v) (darkMode v) (darkModeToggle v) (skipLink v)
           (window_close v) (Some h) (window_onresize v))).

Definition set_window_onresize (h : handler) : M unit :=
  update (with_vars (fun v =>
    mkVars (modals v) (trapFocusController v) (keydownController v)
           (accordionItems v) (darkMode v) (darkModeToggle v) (skipLink v)
           (window_close v) (window_toggleAccordionItem v) (Some h))).

Definition item_sel : selector := [Just [Class "accordion__item"]].
Definition header_sel : selector := [Just [Class "accordion__header"]].
Definition panel_sel : selector := [Just [Class "accordion__panel"]].
Definition indicator_sel : selector := [Just [Class "header__toggle-indicator"]].
Definition inner_sel : selector := [Just [Class "panel__inner"]].
Definition wrapper_sel : selector := [Just [Class "accordion__wrapper"]].

(** The two icons assigned to [innerHTML].  The parser keeps the first
    of the two [class] attributes of the minus icon. *)
Definition icon (attributes : list (string * string)) (d : string) (u : nat)
  : list node :=
  [ Node u (mkElem "svg" ["header__toggle-indicator"] attributes None "0")
      [ Node (S u)
          (mkElem "path" [] [("fill", "currentColor"); ("d", d)] None "0")
          [] ] ].

Definition minus_icon : nat -> list node :=
  icon [ ("aria-hidden", "true"); ("data-prefix", "fas");
         ("data-icon", "minus"); ("xmlns", "http://www.w3.org/2000/svg");
         ("viewBox", "0 0 448 512") ]
       "M416 208H32c-17.67 0-32 14.33-32 32v32c0 17.67 14.33 32 32 32h384c17.67 0 32-14.33 32-32v-32c0-17.67-14.33-32-32-32z".

Definition plus_icon : nat -> list node :=
  icon [ ("aria-hidden", "true"); ("xmlns", "http://www.w3.org/2000/svg");
         ("viewBox", "0 0 448 512") ]
       "M416 208H272V64c0-17.67-14.33-32-32-32h-32c-17.67 0-32 14.33-32 32v144H32c-17.67 0-32 14.33-32 32v32c0 17.67 14.33 32 32 32h144v144c0 17.67 14.33 32 32 32h32c17.67 0 32-14.33 32-32V304h144c17.67 0 32-14.33 32-32v-32c0-17.67-14.33-32-32-32z".

Definition getPanelHeight (accordionItem : nat) : M string :=
  accordionInner <- querySelector_in accordionItem inner_sel ;;
  match accordionInner with
  | Some i => rect_height i
  | None => ret "0"
  end.

Definition openAccordionItem (accordionItem : nat) : M unit :=
  accordionItemHeader <- querySelector_in accordionItem header_sel ;;
  accordionToggleIndicator <- querySelector_in accordionItem indicator_sel ;;
  accordionPanel <- querySelector_in accordionItem panel_sel ;;
  p <- deref accordionPanel ;;
  h <- getPanelHeight accordionItem ;;
  set_style_height p (h ++ "px") ;;
  classList_add accordionItem "is-active" ;;
  hd <- deref accordionItemHeader ;;
  setAttribute hd "aria-expanded" "true" ;;
  i <- deref accordionToggleIndicator ;;
  set_innerHTML i minus_icon 2.

Definition closeAccordionItem (accordionItem : nat) : M unit :=
  header <- querySelector_in accordionItem header_sel ;;
  toggleIndicator <- querySelector_in accordionItem indicator_sel ;;
  panel <- querySelector_in accordionItem panel_sel ;;
  classList_remove accordionItem "is-active" ;;
  p <- deref panel ;;
  set_style_height p "0" ;;
  hd <- deref header ;;
  focus hd ;;
  setAttribute hd "aria-expanded" "false" ;;
  i <- deref toggleIndicator ;;
  set_innerHTML i plus_icon 2 ;;
  parent <- parentElement p ;;
  match parent with
  | None => ret tt          (* if (!panel.parentElement) return *)
  | Some _ => ret tt        (* the end of the function *)
  end.

Definition isAccordionOpen (accordionItem : nat) : M bool :=
  classList_contains accordionItem "is-active".

(** [event.target.closest(sel)]: the document itself has no [closest]. *)
Definition target_closest (event : event) (sel : selector) : M (option nat) :=
  t <- deref (ev_target event) ;;
  closest t sel.

(** [toggleAccordionItem()] reads the event in flight, [window.event]. *)
Definition toggleAccordionItem (event : event) : M unit :=
  accordionItem <- target_closest event item_sel ;;
  match accordionItem with
  | None => ret tt
  | Some item =>
      o <- isAccordionOpen item ;;
      if o then closeAccordionItem item else openAccordionItem item
  end.

Definition recalculateHeight : M unit :=
  items <- gets (fun p => accordionItems (vars p)) ;;
  toggledAccordionItems <-
    gets (fun p => filter (fun u => class_on u "is-active" (dom p)) items) ;;
  forEach toggledAccordionItems (fun item =>
    panel <- querySelector_in item panel_sel ;;
    p <- deref panel ;;
    h <- getPanelHeight item ;;
    set_style_height p (h ++ "px")).

(** [`${index + 1}`] *)
Definition number (n : nat) : string := NilEmpty.string_of_uint (Nat.to_uint n).

(** The body of [for (const [index, item] of accordionItems.entries())]. *)
Definition numberItem (index : nat) (item : nat) : M unit :=
  header <- querySelector_in item header_sel ;;
  panel <- querySelector_in item panel_sel ;;
  hd <- deref header ;;
  setAttribute hd "id" ("accordion-item" ++ number (index + 1)) ;;
  p <- deref panel ;;
  setAttribute p "id" ("item" ++ number (index + 1)) ;;
  setAttribute hd "aria-controls" ("item" ++ number (index + 1)) ;;
  setAttribute p "aria-labelledby" ("accordion-item" ++ number (index + 1)).

Fixpoint forEntries (index : nat) (l : list nat) (f : nat -> nat -> M unit)
  : M unit :=
  match l with
  | [] => ret tt
  | x :: r => f index x ;; forEntries (S index) r f
  end.

(** The first [keydown] listener on the document. *)
Definition onEscape (event : event) : M unit :=
  accordionItem <- target_closest event item_sel ;;
  match String.eqb (ev_key event) "Escape", accordionItem with
  | true, Some item =>
      o <- isAccordionOpen item ;;
      if o then closeAccordionItem item else ret tt
  | _, _ => ret tt          (* event.key !== 'Escape' || !accordionItem *)
  end.

(** [array.indexOf(x)]: the first position of [x], [-1] without one. *)
Fixpoint index_from (i : Z) (l : list nat) (x : nat) : Z :=
  match l with
  | [] => (-1)%Z
  | y :: r => if Nat.eqb y x then i else index_from (i + 1)%Z r x
  end.

Definition indexOf (l : list nat) (x : option nat) : Z :=
  match x with Some u => index_from 0%Z l u | None => (-1)%Z end.

(** [array[i]] *)
Definition item_at (l : list nat) (i : Z) : option nat :=
  if (i <? 0)%Z then None else nth_error l (Z.to_nat i).

(** The closure [targetItem], over [index] and the script's
    [accordionItems]. *)
Definition targetItem (index : Z) (items : list nat) (key : string)
  : option nat :=
  if String.eqb key "ArrowDown" then
    if (index <? Z.of_nat (List.length items) - 1)%Z
    then item_at items (index + 1)%Z else None
  else if String.eqb key "ArrowUp" then
    if (index >? 0)%Z then item_at items (index - 1)%Z else None
  else None.

(** The second [keydown] listener on the document. *)
Definition onArrows (event : event) : M unit :=
  targetElement <- target_closest event header_sel ;;
  match targetElement with
  | None => ret tt
  | Some te =>
      accordionWrapper <- closest te wrapper_sel ;;
      w <- deref accordionWrapper ;;
      inWrapper <- querySelectorAll_in w item_sel ;;
      own <- closest te item_sel ;;
      let index := indexOf inWrapper own in
      items <- gets (fun p => accordionItems (vars p)) ;;
      match targetItem index items (ev_key event) with
      | None => ret tt
      | Some target =>
          preventDefault ;;
          header <- querySelector_in target header_sel ;;
          hd <- deref header ;;
          focus hd
      end
  end.

(** The script, top to bottom. *)
Definition script : M unit :=
  items <- querySelectorAll item_sel ;;
  set_accordionItems items ;;
  forEntries 0 items numberItem ;;
  addEventListener OnDocument Keydown AccordionEscape None ;;
  addEventListener OnDocument Keydown AccordionArrows None ;;
  set_window_toggleAccordionItem AccordionToggle ;;
  set_window_onresize AccordionResize.

End Accordion.

(* ================================================================== *)
(** * DarkMode.astro *)
(* ================================================================== *)

Module DarkMode.
Import Dom Page Api.

Definition set_darkMode (o : option string) : M unit :=
  update (with_vars (fun v =>
    mkVars (modals v) (trapFocusController v) (keydownController v)
           (accordionItems v) o (darkModeToggle v) (skipLink v)
           (window_close v) (window_toggleAccordionItem v) (window_onresize v))).

Definition set_darkModeToggle (o : option nat) : M unit :=
  update (with_vars (fun v =>
    mkVars (modals v) (trapFocusController v) (keydownController v)
           (accordionItems v) (darkMode v) o (skipLink v)
           (window_close v) (window_toggleAccordionItem v) (window_onresize v))).

Definition toggle_icon (path_attributes : list (string * string)) (u : nat)
  : list node :=
  [ Node u (mkElem "svg" []
              [ ("xmlns", "http://www.w3.org/2000/svg"); ("aria-hidden", "true");
                ("width", "32"); ("height", "32"); ("viewBox", "0 0 24 24") ]
              None "0")
      [ Node (S u) (mkElem "path" [] path_attributes None "0") [] ] ].

Definition sun_icon : nat -> list node :=
  toggle_icon
    [ ("fill-rule", "evenodd"); ("clip-rule", "evenodd");
      ("d", "M13 3a1 1 0 1 0-2 0v1a1 1 0 1 0 2 0V3zM5.707 4.293a1 1 0 0 0-1.414 1.414l1 1a1 1 0 0 0 1.414-1.414l-1-1zm14 0a1 1 0 0 0-1.414 0l-1 1a1 1 0 0 0 1.414 1.414l1-1a1 1 0 0 0 0-1.414zM12 7a5 5 0 1 0 0 10 5 5 0 0 0 0-10zm-9 4a1 1 0 1 0 0 2h1a1 1 0 1 0 0-2H3zm17 0a1 1 0 1 0 0 2h1a1 1 0 1 0 0-2h-1zM6.707 18.707a1 1 0 1 0-1.414-1.414l-1 1a1 1 0 1 0 1.414 1.414l1-1zm12-1.414a1 1 0 0 0-1.414 1.414l1 1a1 1 0 0 0 1.414-1.414l-1-1zM13 20a1 1 0 1 0-2 0v1a1 1 0 1 0 2 0v-1z");
      ("fill", "currentColor") ].

Definition moon_icon : nat -> list node :=
  toggle_icon
    [ ("fill", "currentColor");
      ("d", "M9.353 3C5.849 4.408 3 7.463 3 11.47A9.53 9.53 0 0 0 12.53 21c4.007 0 7.062-2.849 8.47-6.353C8.17 17.065 8.14 8.14 9.353 3z") ].

Definition enableDarkMode (store : bool) : M unit :=
  body <- document_body ;;
  b <- deref body ;;
  classList_add b "darkmode" ;;
  toggle <- gets (fun p => darkModeToggle (vars p)) ;;
  t <- deref toggle ;;
  set_innerHTML t sun_icon 2 ;;
  setAttribute t "aria-pressed" "true" ;;
  if store then localStorage_setItem "darkMode" "enabled" else ret tt.

Definition disableDarkMode (store : bool) : M unit :=
  body <- document_body ;;
  b <- deref body ;;
  classList_remove b "darkmode" ;;
  toggle <- gets (fun p => darkModeToggle (vars p)) ;;
  t <- deref toggle ;;
  set_innerHTML t moon_icon 2 ;;
  setAttribute t "aria-pressed" "false" ;;
  if store then localStorage_setItem "darkMode" "disabled" else ret tt.

Definition checkPreference (store : bool) : M unit :=
  prefersDarkMode <- matchMedia_prefers_dark ;;
  if prefersDarkMode then enableDarkMode false else disableDarkMode store.

(** The [if]/[else if]/[else] on the [darkMode] variable; the script has
    it at top level and in the [astro:after-swap] listener.  The calls
    without an argument take the defaults [store = true] and, for
    [checkPreference], [store = false]. *)
Definition applyDarkMode : M unit :=
  dm <- gets (fun p => darkMode (vars p)) ;;
  match dm with
  | Some v =>
      if String.eqb v "enabled" then enableDarkMode true
      else if String.eqb v "disabled" then disableDarkMode true
      else checkPreference false
  | None => checkPreference false
  end.

(** The click listener on the toggle. *)
Definition onClick : M unit :=
  body <- document_body ;;
  b <- deref body ;;
  isDarkMode <- classList_contains b "darkmode" ;;
  if isDarkMode then disableDarkMode true else enableDarkMode true.

(** The [astro:after-swap] listener.  An empty string is falsy. *)
Definition afterSwap : M unit :=
  darkModeFromStorage <- localStorage_getItem "darkMode" ;;
  set_darkMode (match darkModeFromStorage with
                | Some EmptyString => None
                | Some v => Some v
                | None => None
                end) ;;
  applyDarkMode.

(** The script, top to bottom. *)
Definition script : M unit :=
  dm <- localStorage_getItem "darkMode" ;;
  set_darkMode dm ;;
  toggle <- querySelector [Just [Class "darkmode-toggle"]] ;;
  set_darkModeToggle toggle ;;
  applyDarkMode ;;
  t <- deref toggle ;;
  addEventListener (OnElement t) Click DarkModeClick None ;;
  addEventListener OnDocument AfterSwap DarkModeAfterSwap None.

End DarkMode.

(* ================================================================== *)
(** * SkipLinks.astro *)
(* ================================================================== *)

Module SkipLinks.
Import Dom Page Api.

Definition set_skipLink (o : option nat) : M unit :=
  update (with_vars (fun v =>
    mkVars (modals v) (trapFocusController v) (keydownController v)
           (accordionItems v) (darkMode v) (darkModeToggle v) o
           (window_close v) (window_toggleAccordionItem v) (window_onresize v))).

(** [document.querySelector(text)] for the text of an [href]: a hash
    followed by an identifier selects by id. *)
Definition querySelector_text (text : string) : M (option nat) :=
  match text with
  | String c x =>
      if Nat.eqb (nat_of_ascii c) 35 && css_ident x
      then querySelector [Just [Id x]]
      else throw (SelectorOutsideModel text)
  | EmptyString => throw (SelectorOutsideModel text)
  end.

Definition diagnostic : string :=
  "SkipLinks are not set, either missing an h1 or main content id on the page.".

(** The [keydown] listener on the skip link. *)
Definition onKeydown (event : event) : M unit :=
  t <- deref (ev_target event) ;;
  a <- closest t [Just [Tag "a"]] ;;
  match a with
  | None => ret tt
  | Some _ =>
      if negb (String.eqb (ev_key event) "Enter") then ret tt
      else
        target <- getAttribute t "href" ;;
        targetElement <- querySelector_text (template target) ;;
        match targetElement with
        | Some te => setAttribute te "tabindex" "-1" ;; focus te
        | None =>
            h1 <- querySelector [Just [Tag "h1"]] ;;
            match h1 with
            | Some h => setAttribute h "tabindex" "-1" ;; focus h
            | None => console_warn diagnostic
            end
        end
  end.

(** The top level of the script, top to bottom, [this] being what it
    finds bound to [this] ([None]: [undefined]); a data attribute that
    is not there reads as [undefined]. *)
Definition top_level (this : option nat) : M unit :=
  self <- deref this ;;
  classname <- getAttribute self "data-classname" ;;
  let text := match classname with Some s => s | None => "undefined" end in
  link <- (if css_ident text
           then querySelector [Inside [Class text] [Tag "a"]]
           else throw (SelectorOutsideModel ("." ++ text ++ " a"))) ;;
  set_skipLink link ;;
  match link with
  | Some a => addEventListener (OnElement a) Keydown SkipLinkKeydown None
  | None => ret tt
  end.

(** The script as a page runs it: a module script ([type='module']), at
    whose top level [this] is [undefined]. *)
Definition script : M unit := top_level None.

End SkipLinks.

(* ================================================================== *)
(** * Events *)
(* ================================================================== *)

Module Events.
Import Dom Page Api.

(** What each registered closure runs. *)
Definition run_handler (h : handler) (ev : event) : M unit :=
  match h with
  | ModalTriggerClick modal => Modal.openModal modal
  | ModalCloseModal => Modal.closeModal
  | ModalTrapFocus modal => Modal.trapFocus ev modal
  | ModalEscape =>
      if String.eqb (ev_key ev) "Escape" then Modal.closeModal else ret tt
  | ModalBackdropClick => Modal.closeModal
  | ModalInnerClick => stopPropagation
  | ModalAfterSwap => Modal.afterSwap
  | AccordionEscape => Accordion.onEscape ev
  | AccordionArrows => Accordion.onArrows ev
  | AccordionToggle => Accordion.toggleAccordionItem ev
  | AccordionResize => Accordion.recalculateHeight
  | DarkModeClick => DarkMode.onClick
  | DarkModeAfterSwap => DarkMode.afterSwap
  | SkipLinkKeydown => SkipLinks.onKeydown ev
  end.

(** An exception leaving a listener is reported and the dispatch goes on. *)
Definition report (e : exn) : M unit :=
  update (with_env (fun v =>
    mkEnv (storage v) (prefersDark v) (console v) (uncaught v ++ [e]))).

Definition guard (c : M unit) : M unit :=
  fun p => match c p with
           | (Ok _, p') => (Ok tt, p')
           | (Throw e, p') => report e p'
           end.

Definition still_registered (l : listener) (p : page) : bool :=
  existsb (fun l' => Nat.eqb (lid l') (lid l)) (listeners (events p)).

(** The listeners of one target for one event: those registered when the
    event arrives there, in registration order, each skipped if removed
    in the meantime. *)
Definition invoke (t : target) (ev : event) : M unit :=
  here <- gets (fun p =>
            filter (fun l => target_eqb (l_target l) t
                             && evtype_eqb (l_type l) (ev_type ev))
                   (listeners (events p))) ;;
  forEach here (fun l =>
    live <- gets (still_registered l) ;;
    if live then guard (run_handler (l_handler l) ev) else ret tt).

Fixpoint bubble (path : list target) (ev : event) : M unit :=
  match path with
  | [] => ret tt
  | t :: rest =>
      invoke t ev ;;
      stopped <- gets (fun p => propagationStopped (events p)) ;;
      if stopped then ret tt else bubble rest ev
  end.

Definition fresh_flags : M unit :=
  update (with_events (fun e =>
    mkEvents (listeners e) (next_lid e) (next_controller e) (aborted e)
             false false)).

(** One event, from its target up to the document. *)
Definition dispatch (ev : event) : M unit :=
  fresh_flags ;;
  path <- gets (fun p => event_path (ev_target ev) (dom p)) ;;
  bubble path ev.

Definition keydown (target : option nat) (key : string) (shift : bool) : event :=
  mkEvent Keydown target key shift.

Definition click (target : nat) : event :=
  mkEvent Click (Some target) EmptyString false.

Definition after_swap : event := mkEvent AfterSwap None EmptyString false.

(** Modelled from the spec: the host's view swap, which is not part of
    this repository ("DOM nodes are replaced wholesale on soft
    navigation").  A new tree takes the place of the document's, the
    old one lives on outside the document for whoever holds on to its
    elements; nothing is focused and no dialog blocks the new document;
    the listener table and the script variables stay. *)
Definition view_swap (new_doc : node) (p : page) : page :=
  with_dom (fun d =>
    mkDom new_doc (doc d :: detached d)
          (Nat.max (next_uid d) (S (list_max (uids new_doc))))
          None (focus_log d) []) p.

End Events.

(* ================================================================== *)
(** * Vocabulary for the statements *)
(* ================================================================== *)

Module Shape.
Import Dom Page Api.

(** The identities strictly inside the element [u], wherever it is. *)
Fixpoint under (u : nat) (n : node) : list nat :=
  match n with
  | Node v _ ks =>
      if Nat.eqb v u then flat_map uids ks else flat_map (under u) ks
  end.

Definition inside (u : nat) (d : dom_state) : list nat :=
  flat_map (under u) (forest d).

Definition all_uids (d : dom_state) : list nat := flat_map uids (forest d).

Fixpoint distinct (l : list nat) : bool :=
  match l with
  | [] => true
  | x :: r => negb (existsb (Nat.eqb x) r) && distinct r
  end.

(** Element objects are told apart by their identity, and identities
    not handed out yet are fresh. *)
Definition wf_dom (d : dom_state) : bool :=
  distinct (all_uids d) && forallb (fun u => Nat.ltb u (next_uid d)) (all_uids d).

(** Controllers aborted so far were made before the next one. *)
Definition wf_events (e : event_state) : bool :=
  forallb (fun c => Nat.ltb c (next_controller e)) (aborted e).

Definition has_uid (v : nat) (n : node) : bool := Nat.eqb (uid n) v.

(** The element object found for an identity, as a subtree. *)
Definition node_of (v : nat) (d : dom_state) : option node :=
  find (has_uid v) (flat_map preorder (forest d)).

(** The dark-mode state an initial load is to arrive at: the stored
    preference, then the system's preferred scheme, then disabled. *)
Definition resolved (stored : option string) (prefers_dark : bool) : bool :=
  match stored with
  | Some v =>
      if String.eqb v "enabled" then true
      else if String.eqb v "disabled" then false
      else prefers_dark
  | None => prefers_dark
  end.

(** A simple selector against the data of one element. *)
Definition matches_elem (s : simple) (e : elem) : bool :=
  match s with
  | Tag t => String.eqb (tag e) t
  | Class c => has_class c e
  | Id i => attr_is "id" i e
  | HasAttr a => has_attr a e
  | NotAttrEq a v => negb (attr_is a v e)
  end.

Definition simples_of (sel : selector) : list simple :=
  flat_map (fun x => match x with Just c => c | Inside a c => (a ++ c)%list end) sel.

(** A write [f] that no part of the selector can see. *)
Definition inert (sel : selector) (f : elem -> elem) : Prop :=
  forall s, In s (simples_of sel) -> forall e, matches_elem s (f e) = matches_elem s e.

(** The trigger of a dialog: the element whose id the dialog's
    [aria-labelledby] names. *)
Definition trigger_of (m : nat) (d : dom_state) : option nat :=
  let x := template (attr_of m "aria-labelledby" d) in
  if css_ident x then doc_query [Just [Id x]] d else None.

Definition triggers_of (ms : list nat) (d : dom_state) : list nat :=
  flat_map (fun m => match trigger_of m d with Some t => [t] | None => [] end) ms.

Definition close_button_of (m : nat) (d : dom_state) : option nat :=
  el_query m [Inside [Class "modal__close"] [Tag "button"]] d.

(** The focusable descendants in the words of the description: anchors,
    buttons, inputs, textareas, selects, details, and elements with a
    [tabindex] other than "-1". *)
Definition spec_focusable (e : elem) : bool :=
  existsb (String.eqb (tag e))
          ["a"; "button"; "input"; "textarea"; "select"; "details"]
  || (has_attr "tabindex" e && negb (attr_is "tabindex" "-1" e)).

(** A listener that neither of the two controllers guards. *)
Definition unguarded (tc kc : option nat) (l : listener) : bool :=
  match tc with Some c => negb (guarded_by c l) | None => true end
  && match kc with Some c => negb (guarded_by c l) | None => true end.

(** A write that leaves [id] and [aria-labelledby] alone. *)
Definition keeps_ids (f : elem -> elem) : Prop :=
  forall a e, a = "id" \/ a = "aria-labelledby" -> get_attr a (f e) = get_attr a e.

(** The document with the closed dialog [m] shown modally, before the
    focus moves into it. *)
Definition shown (m : nat) (d : dom_state) : dom_state :=
  push_modal m (update_elem m (set_attr "open" EmptyString) d).

(** The document after [showModal()] on a closed dialog in it. *)
Definition opened (m : nat) (d : dom_state) : dom_state :=
  move_focus (dialog_focus_target m (shown m d)) (shown m d).

(** The document after [close()] on a dialog. *)
Definition closed (m : nat) (d : dom_state) : dom_state :=
  if has_attr_at m "open" d then
    let d' := update_elem m (remove_attr "open") d in
    match previously_focused m d' with
    | Some e => focused e (pop_modal m d')
    | None => pop_modal m d'
    end
  else d.

(** The four listeners of one open session, as [openModal] registers
    them from listener number [n] under the controllers [c] and [S c]. *)
Definition session (n c m inner : nat) : list listener :=
  [ mkListener n OnDocument Keydown (ModalTrapFocus m) (Some c);
    mkListener (S n) (OnElement m) Keydown ModalEscape (Some (S c));
    mkListener (S (S n)) (OnElement m) Click ModalBackdropClick (Some (S c));
    mkListener (S (S (S n))) (OnElement inner) Click ModalInnerClick (Some (S c)) ].

(** The handlers that exist only while a dialog is open. *)
Definition session_handler (h : handler) : bool :=
  match h with
  | ModalTrapFocus _ | ModalEscape | ModalBackdropClick | ModalInnerClick => true
  | _ => false
  end.

(** The listeners of one target for one type of event. *)
Definition listening (t : target) (ty : evtype) (ls : list listener)
  : list listener :=
  filter (fun l => target_eqb (l_target l) t && evtype_eqb (l_type l) ty) ls.

(** The event state after [event.preventDefault()]. *)
Definition prevented (e : event_state) : event_state :=
  mkEvents (listeners e) (next_lid e) (next_controller e) (aborted e)
           true (propagationStopped e).

(** Some listener with this handler sits on this target for this type
    of event. *)
Definition has_listener (t : target) (ty : evtype) (h : handler) (p : page) : Prop :=
  exists l, In l (listeners (events p))
            /\ l_target l = t /\ l_type l = ty /\ l_handler l = h.

(** What [if (darkModeFromStorage)] lets through: a non-empty string. *)
Definition truthy (o : option string) : option string :=
  match o with
  | Some EmptyString => None
  | Some v => Some v
  | None => None
  end.

(** [controller?.abort()] on the listener table. *)
Definition abort_state (o : option nat) (e : event_state) : event_state :=
  match o with Some c => abort_controller c e | None => e end.

(** The nodes inside an element, in document order. *)
Definition desc (v : nat) (d : dom_state) : list node :=
  match node_of v d with
  | Some x => flat_map preorder (kids x)
  | None => []
  end.

(** What is seen of an accordion item from outside: whether it is
    marked active, the [aria-expanded] of its header, the height set on
    its panel. *)
Definition item_state (i : nat) (d : dom_state)
  : bool * option (option string) * option (option string) :=
  (class_on i "is-active" d,
   option_map (fun h => attr_of h "aria-expanded" d)
              (el_query i Accordion.header_sel d),
   option_map (fun p => height_of p d)
              (el_query i Accordion.panel_sel d)).

(** An element and everything in it. *)
Definition subtree_uids (u : nat) (d : dom_state) : list nat :=
  u :: map (fun p => uid (snd p)) (below u d).

Definition disjoint (a b : list nat) : bool :=
  forallb (fun x => negb (existsb (Nat.eqb x) b)) a.

(** The attributes the focus rules read. *)
Definition focus_attrs : list string :=
  ["hidden"; "open"; "inert"; "disabled"; "tabindex"; "href"; "type";
   "controls"; "contenteditable"].

(** A write the focus rules cannot see: the tag stays, and so do those
    attributes. *)
Definition focus_blind (f : elem -> elem) : Prop :=
  forall e, tag (f e) = tag e
            /\ forall a, In a focus_attrs -> get_attr a (f e) = get_attr a e.

End Shape.

(* ================================================================== *)
(** * Sample pages *)
(* ================================================================== *)

Module Samples.
Import Dom Page Api.

Definition plain (t : string) (cls : list string) (attributes : list (string * string))
  : elem :=
  mkElem t cls attributes None "0".

Definition html (body : list node) : node :=
  Node 0 (plain "html" [] []) [Node 1 (plain "body" [] []) body].

(** A page just parsed: nothing focused, no listener, nothing stored. *)
Definition parsed (d : node) (next : nat) : page :=
  mkPage (mkDom d [] next None [] [])
         (mkEvents [] 0 0 [] false false)
         (mkEnv [] false [] [])
         (mkVars [] None None [] None None None None None None).

(** A dialog as [Modal.astro] renders it, with a link and a disabled
    input as content, identities from [u]. *)
Definition dialog (u : nat) (triggerId : string) : node :=
  Node u (plain "dialog" ["modal"] [("aria-labelledby", triggerId)])
    [ Node (u + 1) (plain "div" ["modal__inner"] [])
        [ Node (u + 2) (plain "div" ["modal__content"] [])
            [ Node (u + 3) (plain "h3" [] [("tabindex", "-1")]) [];
              Node (u + 4) (plain "a" [] [("href", "/more")]) [];
              Node (u + 5) (plain "input" [] [("disabled", EmptyString)]) [] ];
          Node (u + 6) (plain "div" ["modal__close"] [])
            [ Node (u + 7) (plain "button" [] []) [] ] ] ].

Definition trigger (u : nat) (id : string) : node :=
  Node u (plain "button" [] [("id", id)]) [].

Definition modal_page : page :=
  parsed (html [trigger 2 "open-1"; dialog 3 "open-1"]) 11.

(** The same page once [Modal.astro]'s script has run. *)
Definition modal_loaded : page := snd (Modal.script modal_page).

Definition two_modals_page : page :=
  parsed (html [ trigger 2 "open-1"; dialog 3 "open-1";
                 trigger 12 "open-2"; dialog 13 "open-2" ]) 21.

Definition two_modals_loaded : page := snd (Modal.script two_modals_page).

(** Two dialogs, the second naming a trigger that is not on the page. *)
Definition orphan_page : page :=
  parsed (html [ trigger 2 "open-1"; dialog 3 "open-1"; dialog 13 "open-2" ]) 21.

(** An accordion item as the markup contract has it: a header holding
    the toggle indicator, then a panel holding the inner box. *)
Definition item (u : nat) (cls : list string) (height : string) : node :=
  Node u (plain "li" ("accordion__item" :: cls) [])
    [ Node (u + 1) (plain "button" ["accordion__header"] [("aria-expanded", "false")])
        [ Node (u + 2) (plain "span" ["header__toggle-indicator"] []) [] ];
      Node (u + 3) (plain "div" ["accordion__panel"] [])
        [ Node (u + 4) (mkElem "div" ["panel__inner"] [] None height) [] ] ].

Definition accordion (u : nat) (items : list node) : node :=
  Node u (plain "div" ["accordion"] [])
    [ Node (u + 1) (plain "ul" ["accordion__wrapper"] []) items ].

(** Two accordions on one page: three items, then two. *)
Definition two_accordions_page : page :=
  parsed (html [ accordion 10 [item 20 [] "120"; item 30 [] "80"; item 40 [] "64"];
                 accordion 50 [item 60 [] "48"; item 70 [] "96"] ]) 100.

Definition two_accordions_loaded : page := snd (Accordion.script two_accordions_page).

(** An open item whose panel has been taken out of the document. *)
Definition panel_removed_page : page :=
  parsed (html [ accordion 10
    [ Node 20 (plain "li" ["accordion__item"; "is-active"] [])
        [ Node 21 (plain "button" ["accordion__header"] [("aria-expanded", "true")])
            [ Node 22 (plain "span" ["header__toggle-indicator"] []) [] ] ] ] ]) 100.

(** An open item taken out of the document whole, panel and all. *)
Definition item_removed_page : page :=
  mkPage (mkDom (html [accordion 10 []]) [item 20 ["is-active"] "120"] 100 None [] [])
         (mkEvents [] 0 0 [] false false)
         (mkEnv [] false [] [])
         (mkVars [] None None [20] None None None None None None).

(** A page with the dark-mode toggle, on a system that prefers dark. *)
Definition dark_page : page :=
  mkPage (mkDom (html [ Node 2 (plain "button" ["darkmode-toggle"]
                                  [("aria-pressed", "false");
                                   ("aria-label", "Toggle Dark Mode")]) [] ])
                [] 3 None [] [])
         (mkEvents [] 0 0 [] false false)
         (mkEnv [] true [] [])
         (mkVars [] None None [] None None None None None None).

Definition dark_loaded : page := snd (DarkMode.script dark_page).

(** The same page after a soft navigation to a view with a toggle of
    its own: the toggle the script found at load is out of the
    document. *)
Definition next_dark_view : node :=
  Node 100 (plain "html" [] [])
    [ Node 101 (plain "body" [] [])
        [ Node 102 (plain "button" ["darkmode-toggle"]
                      [("aria-pressed", "false");
                       ("aria-label", "Toggle Dark Mode")]) [] ] ].

Definition dark_swapped : page := Events.view_swap next_dark_view dark_loaded.

(** The skip link as [SkipLinks.astro] renders it with its defaults:
    the quoted [data-classname] is the text between the quotes. *)
Definition skip_anchor : elem := plain "a" [] [("href", "#main-content")].

Definition skip_links (u : nat) : node :=
  Node u (plain "div" ["skip-links"] [("data-classname", "{className}")])
    [Node (S u) skip_anchor []].

(** A page with the skip link, a heading and the link's target. *)
Definition skip_page : page :=
  parsed (html [ skip_links 2;
                 Node 4 (plain "h1" [] []) [];
                 Node 5 (plain "main" [] [("id", "main-content")]) [] ]) 6.

(** The same without the target, and without target and heading. *)
Definition skip_heading_page : page :=
  parsed (html [ skip_links 2; Node 4 (plain "h1" [] []) [] ]) 5.

Definition skip_bare_page : page := parsed (html [skip_links 2]) 4.

(** A page with a skip link and an accordion, both scripts run. *)
Definition widgets_page : page :=
  parsed (html [ skip_links 2; accordion 10 [item 20 [] "120"] ]) 100.

Definition widgets_loaded : page :=
  snd (SkipLinks.script (snd (Accordion.script widgets_page))).

(** The page a view swap brings in: another accordion, another skip link. *)
Definition next_view : node :=
  Node 200 (plain "html" [] [])
    [ Node 201 (plain "body" [] [])
        [ skip_links 202; accordion 210 [item 220 [] "72"] ] ].

(** A dialog as [Modal.astro] renders it around the content [slot],
    identities from [u]; those of the slot are the caller's. *)
Definition dialog_with (u : nat) (triggerId : string) (slot : list node) : node :=
  Node u (plain "dialog" ["modal"] [("aria-labelledby", triggerId)])
    [ Node (u + 1) (plain "div" ["modal__inner"] [])
        [ Node (u + 2) (plain "div" ["modal__content"] [])
            (Node (u + 3) (plain "h3" [] [("tabindex", "-1")]) [] :: slot);
          Node (u + 6) (plain "div" ["modal__close"] [])
            [ Node (u + 7) (plain "button" [] []) [] ] ] ].

(** A dialog whose content is a [details] element. *)
Definition details_page : page :=
  parsed (html [ trigger 2 "open-1";
                 dialog_with 3 "open-1"
                   [ Node 7 (plain "details" [] [])
                       [ Node 8 (plain "summary" [] []) [] ] ] ]) 11.

Definition details_loaded : page := snd (Modal.script details_page).

(** A dialog whose content is a form that starts with a hidden input. *)
Definition form_page : page :=
  parsed (html [ trigger 2 "open-1";
                 dialog_with 3 "open-1"
                   [ Node 7 (plain "input" [] [("type", "hidden"); ("name", "token")]) [];
                     Node 8 (plain "input" [] [("type", "text"); ("name", "email")]) [] ] ])
         11.

Definition form_loaded : page := snd (Modal.script form_page).

(** The view a soft navigation brings in on a site with the same dialog
    on every page. *)
Definition next_modal_view : node :=
  Node 100 (plain "html" [] [])
    [ Node 101 (plain "body" [] [])
        [ trigger 102 "open-1"; dialog 103 "open-1" ] ].

End Samples.

(* ================================================================== *)
(** * Facts about the document tree *)
(* ================================================================== *)

Module DomFacts.
Import Dom Page Api Shape.

Lemma node_induction (P : node -> Prop) :
  (forall u e ks, Forall P ks -> P (Node u e ks)) -> forall n, P n.
Proof.
  intros step. fix IH 1. intros [u e ks]. apply step.
  induction ks as [|k r IHr]; constructor; [apply IH | exact IHr].
Qed.

Lemma find_map {A B} (g : A -> B) (f : B -> bool) (l : list A) :
  find f (map g l) = option_map g (find (fun a => f (g a)) l).
Proof.
  induction l as [|a r IHr]; simpl; [reflexivity|].
  destruct (f (g a)); [reflexivity | exact IHr].
Qed.

Lemma find_app {A} (f : A -> bool) (l1 l2 : list A) :
  find f (l1 ++ l2) = match find f l1 with Some a => Some a | None => find f l2 end.
Proof.
  induction l1 as [|a r IHr]; simpl; [reflexivity|].
  destruct (f a); [reflexivity | exact IHr].
Qed.

Lemma find_ext {A} (f g : A -> bool) (l : list A) :
  (forall a, f a = g a) -> find f l = find g l.
Proof.
  intros H. induction l as [|a r IHr]; simpl; [reflexivity|].
  rewrite H. now rewrite IHr.
Qed.

Lemma flat_map_map {A B C} (g : A -> B) (f : B -> list C) (l : list A) :
  flat_map f (map g l) = flat_map (fun a => f (g a)) l.
Proof.
  induction l as [|a r IHr]; simpl; [reflexivity | now rewrite IHr].
Qed.

Lemma map_flat_map {A B C} (g : B -> C) (f : A -> list B) (l : list A) :
  map g (flat_map f l) = flat_map (fun a => map g (f a)) l.
Proof.
  induction l as [|a r IHr]; simpl; [reflexivity|].
  now rewrite map_app, IHr.
Qed.

Lemma flat_map_ext_Forall {A B} (f g : A -> list B) (l : list A) :
  Forall (fun a => f a = g a) l -> flat_map f l = flat_map g l.
Proof.
  induction 1 as [|a r Ha _ IHr]; simpl; [reflexivity | now rewrite Ha, IHr].
Qed.

Lemma map_ext_Forall {A B} (f g : A -> B) (l : list A) :
  Forall (fun a => f a = g a) l -> map f l = map g l.
Proof.
  induction 1 as [|a r Ha _ IHr]; simpl; [reflexivity | now rewrite Ha, IHr].
Qed.

(** ** The two traversals agree *)

Lemma walk_snd (n : node) : forall anc, map snd (walk anc n) = preorder n.
Proof.
  induction n as [u e ks IH] using node_induction. intros anc. simpl. f_equal.
  rewrite map_flat_map. apply flat_map_ext_Forall.
  rewrite Forall_forall in *. intros k Hk. apply IH, Hk.
Qed.

Lemma everything_nodes (d : dom_state) :
  map snd (everything d) = flat_map preorder (forest d).
Proof.
  unfold everything. rewrite map_flat_map. apply flat_map_ext_Forall.
  rewrite Forall_forall. intros t _. apply walk_snd.
Qed.

Lemma everything_uids (d : dom_state) :
  map (fun p => uid (snd p)) (everything d) = all_uids d.
Proof.
  unfold all_uids, uids. rewrite <- (map_map snd uid), everything_nodes.
  now rewrite map_flat_map.
Qed.

Lemma locate_node (v : nat) (d : dom_state) :
  option_map snd (locate v d) = node_of v d.
Proof.
  unfold locate, node_of. rewrite <- everything_nodes, find_map. reflexivity.
Qed.

Lemma elem_of_node (v : nat) (d : dom_state) :
  elem_of v d = option_map el (node_of v d).
Proof.
  unfold elem_of. rewrite <- locate_node. now destruct (locate v d).
Qed.

Lemma node_of_uid v d n : node_of v d = Some n -> uid n = v.
Proof.
  unfold node_of. intros H. apply find_some in H. now apply Nat.eqb_eq.
Qed.

(** ** Updates of element data keep the shape *)

Lemma uid_map_elems h n : uid (map_elems h n) = uid n.
Proof. now destruct n. Qed.

Lemma el_map_elems h n : el (map_elems h n) = h (uid n) (el n).
Proof. now destruct n. Qed.

Lemma kids_map_elems h n : kids (map_elems h n) = map (map_elems h) (kids n).
Proof. now destruct n. Qed.

Lemma preorder_map_elems h (n : node) :
  preorder (map_elems h n) = map (map_elems h) (preorder n).
Proof.
  induction n as [u e ks IH] using node_induction. simpl. f_equal.
  rewrite flat_map_map, map_flat_map. apply flat_map_ext_Forall. exact IH.
Qed.

Lemma walk_map_elems h (n : node) : forall anc,
  walk (map (map_elems h) anc) (map_elems h n)
  = map (fun p => (map (map_elems h) (fst p), map_elems h (snd p))) (walk anc n).
Proof.
  induction n as [u e ks IH] using node_induction. intros anc. simpl. f_equal.
  rewrite flat_map_map, map_flat_map. apply flat_map_ext_Forall.
  rewrite Forall_forall in *. intros k Hk. apply (IH k Hk (Node u e ks :: anc)).
Qed.

Lemma uids_map_elems h n : uids (map_elems h n) = uids n.
Proof.
  unfold uids. rewrite preorder_map_elems, map_map.
  apply map_ext. intros a. apply uid_map_elems.
Qed.

Lemma nodes_update_elem u f d :
  flat_map preorder (forest (update_elem u f d))
  = map (map_elems (at_uid u f)) (flat_map preorder (forest d)).
Proof.
  unfold forest. simpl. rewrite preorder_map_elems, map_app. f_equal.
  rewrite flat_map_map, map_flat_map. apply flat_map_ext_Forall.
  rewrite Forall_forall. intros t _. apply preorder_map_elems.
Qed.

Lemma everything_update_elem u f d :
  everything (update_elem u f d)
  = map (fun p => (map (map_elems (at_uid u f)) (fst p),
                   map_elems (at_uid u f) (snd p))) (everything d).
Proof.
  unfold everything, forest. simpl. rewrite map_app. f_equal.
  - apply (walk_map_elems (at_uid u f) (doc d) []).
  - rewrite flat_map_map, map_flat_map. apply flat_map_ext_Forall.
    rewrite Forall_forall. intros t _. apply (walk_map_elems (at_uid u f) t []).
Qed.

Lemma node_of_update_elem u f v d :
  node_of v (update_elem u f d)
  = option_map (map_elems (at_uid u f)) (node_of v d).
Proof.
  unfold node_of. rewrite nodes_update_elem, find_map.
  f_equal. apply find_ext. intros a. unfold has_uid. now rewrite uid_map_elems.
Qed.

Lemma locate_update_elem u f v d :
  locate v (update_elem u f d)
  = option_map (fun p => (map (map_elems (at_uid u f)) (fst p),
                          map_elems (at_uid u f) (snd p))) (locate v d).
Proof.
  unfold locate. rewrite everything_update_elem, find_map.
  f_equal. apply find_ext. intros a. simpl. now rewrite uid_map_elems.
Qed.

(** Reading an element after a write to the element [u]. *)
Lemma elem_of_update_elem u f v d :
  elem_of v (update_elem u f d) = option_map (at_uid u f v) (elem_of v d).
Proof.
  rewrite !elem_of_node, node_of_update_elem.
  destruct (node_of v d) as [n|] eqn:E; simpl; [|reflexivity].
  rewrite el_map_elems. now rewrite (node_of_uid _ _ _ E).
Qed.

Lemma at_uid_same u f e : at_uid u f u e = f e.
Proof. unfold at_uid. now rewrite Nat.eqb_refl. Qed.

Lemma at_uid_other u f v e : v <> u -> at_uid u f v e = e.
Proof. unfold at_uid. intros H. apply Nat.eqb_neq in H. now rewrite H. Qed.

Lemma all_uids_update_elem u f d : all_uids (update_elem u f d) = all_uids d.
Proof.
  unfold all_uids, forest. simpl. rewrite uids_map_elems. f_equal.
  rewrite flat_map_map. apply flat_map_ext. intros a. apply uids_map_elems.
Qed.

Lemma connected_update_elem u f v d :
  connected v (update_elem u f d) = connected v d.
Proof. unfold connected. simpl. now rewrite uids_map_elems. Qed.

End DomFacts.

(** ** Replacing the children of an element *)

Module KidsFacts.
Import Dom Page Api Shape DomFacts.

Lemma find_none_uids v (l : list node) :
  ~ In v (map uid l) -> find (has_uid v) l = None.
Proof.
  induction l as [|a r IHr]; simpl; intros H; [reflexivity|].
  unfold has_uid at 1. destruct (Nat.eqb_spec (uid a) v) as [E|E].
  - exfalso. apply H. now left.
  - apply IHr. intros Hin. apply H. now right.
Qed.

Lemma find_some_uids v (l : list node) :
  In v (map uid l) -> exists n, find (has_uid v) l = Some n.
Proof.
  induction l as [|a r IHr]; simpl; intros H; [contradiction|].
  unfold has_uid at 1. destruct (Nat.eqb_spec (uid a) v) as [E|E].
  - now exists a.
  - destruct H as [H|H]; [contradiction|]. now apply IHr.
Qed.

Lemma uids_flat (ks : list node) :
  map uid (flat_map preorder ks) = flat_map uids ks.
Proof. now rewrite map_flat_map. Qed.

(** Reading the data of [v] off a tree is the same after the children
    of [u] are replaced, when [v] is [u] itself or is neither inside [u]
    nor among the new nodes. *)
Lemma find_replace_kids u new v (t : node) :
  v = u \/ (~ In v (under u t) /\ ~ In v (flat_map uids new)) ->
  option_map el (find (has_uid v) (preorder (replace_kids u new t)))
  = option_map el (find (has_uid v) (preorder t)).
Proof.
  induction t as [w e ks IH] using node_induction. intros Hv.
  simpl replace_kids. simpl under in Hv.
  destruct (Nat.eqb_spec w u) as [Ewu|Ewu].
  - subst w. simpl. unfold has_uid at 1 3. simpl.
    destruct (Nat.eqb_spec u v) as [E|E]; [reflexivity|].
    destruct Hv as [Hv|[Hu Hn]]; [congruence|].
    rewrite !find_none_uids; [reflexivity| |]; now rewrite uids_flat.
  - simpl. unfold has_uid at 1 3. simpl.
    destruct (Nat.eqb_spec w v) as [E|E]; [reflexivity|].
    assert (Hks : forall k, In k ks ->
              v = u \/ (~ In v (under u k) /\ ~ In v (flat_map uids new))).
    { intros k Hk. destruct Hv as [Hv|[Hu Hn]]; [now left|right]. split; [|exact Hn].
      intros Hin. apply Hu. apply in_flat_map. now exists k. }
    clear Hv. induction ks as [|k r IHr]; simpl; [reflexivity|].
    inversion IH as [|? ? Hk Hr]; subst.
    rewrite !find_app.
    specialize (Hk (Hks k (or_introl eq_refl))).
    destruct (find (has_uid v) (preorder (replace_kids u new k)));
      destruct (find (has_uid v) (preorder k)); simpl in Hk; try discriminate.
    + exact Hk.
    + apply IHr; [exact Hr|]. intros k' Hk'. apply Hks. now right.
Qed.

Lemma find_replace_forest u new v (l : list node) :
  v = u \/ (~ In v (flat_map (under u) l) /\ ~ In v (flat_map uids new)) ->
  option_map el (find (has_uid v) (flat_map preorder (map (replace_kids u new) l)))
  = option_map el (find (has_uid v) (flat_map preorder l)).
Proof.
  intros Hv. induction l as [|t r IHr]; simpl; [reflexivity|].
  rewrite !find_app.
  assert (Ht : v = u \/ (~ In v (under u t) /\ ~ In v (flat_map uids new))).
  { destruct Hv as [Hv|[Hu Hn]]; [now left|right]. split; [|exact Hn].
    intros Hin. apply Hu. simpl. apply in_or_app. now left. }
  pose proof (find_replace_kids u new v t Ht) as E.
  destruct (find (has_uid v) (preorder (replace_kids u new t)));
    destruct (find (has_uid v) (preorder t)); simpl in E; try discriminate.
  - exact E.
  - apply IHr. destruct Hv as [Hv|[Hu Hn]]; [now left|right]. split; [|exact Hn].
    intros Hin. apply Hu. simpl. apply in_or_app. now right.
Qed.

Lemma elem_of_set_kids u new k v d :
  v = u \/ (~ In v (inside u d) /\ ~ In v (flat_map uids new)) ->
  elem_of v (set_kids u new k d) = elem_of v d.
Proof.
  intros Hv. rewrite !elem_of_node. unfold node_of.
  apply (find_replace_forest u new v (forest d)). exact Hv.
Qed.

Lemma under_map_elems h u (t : node) : under u (map_elems h t) = under u t.
Proof.
  induction t as [w e ks IH] using node_induction. simpl.
  destruct (Nat.eqb w u).
  - rewrite flat_map_map. apply flat_map_ext. intros a. apply uids_map_elems.
  - rewrite flat_map_map. apply flat_map_ext_Forall. exact IH.
Qed.

Lemma inside_update_elem u f v d : inside v (update_elem u f d) = inside v d.
Proof.
  unfold inside, forest. simpl. rewrite under_map_elems. f_equal.
  rewrite flat_map_map. apply flat_map_ext. intros a. apply under_map_elems.
Qed.

(** The element whose children are replaced, read off the tree. *)
Lemma find_self_replace u new (t : node) :
  find (has_uid u) (preorder (replace_kids u new t))
  = option_map (with_kids new) (find (has_uid u) (preorder t)).
Proof.
  induction t as [w e ks IH] using node_induction.
  simpl replace_kids. destruct (Nat.eqb_spec w u) as [E|E].
  - subst w. simpl. unfold has_uid at 1 3. simpl. now rewrite Nat.eqb_refl.
  - simpl. unfold has_uid at 1 3. simpl.
    destruct (Nat.eqb_spec w u) as [E'|_]; [contradiction|].
    induction ks as [|k r IHr]; simpl; [reflexivity|].
    inversion IH as [|? ? Hk Hr]; subst.
    rewrite !find_app, Hk.
    destruct (find (has_uid u) (preorder k)); simpl; [reflexivity|].
    now apply IHr.
Qed.

Lemma node_of_set_kids_self u new k d :
  node_of u (set_kids u new k d) = option_map (with_kids new) (node_of u d).
Proof.
  unfold node_of, set_kids, forest. cbn [doc detached].
  change (replace_kids u new (doc d) :: map (replace_kids u new) (detached d))
    with (map (replace_kids u new) (doc d :: detached d)).
  induction (doc d :: detached d) as [|t r IHr]; simpl; [reflexivity|].
  rewrite !find_app, find_self_replace.
  destruct (find (has_uid u) (preorder t)); simpl; [reflexivity | exact IHr].
Qed.

(** A write to [u] changes nothing in a tree without [u]. *)
Lemma map_elems_absent u f (t : node) :
  ~ In u (uids t) -> map_elems (at_uid u f) t = t.
Proof.
  induction t as [w e ks IH] using node_induction. intros H.
  simpl. unfold at_uid at 1.
  destruct (Nat.eqb_spec w u) as [E|_].
  - exfalso. apply H. left. exact E.
  - f_equal. assert (Hks : forall k, In k ks -> ~ In u (uids k)).
    { intros k Hk Hin. apply H. right.
      unfold uids in *. rewrite uids_flat. apply in_flat_map. now exists k. }
    clear H. induction ks as [|k r IHr]; simpl; [reflexivity|].
    inversion IH as [|? ? Hk Hr]; subst. f_equal.
    + apply Hk. apply Hks. now left.
    + apply IHr; [exact Hr|]. intros k' Hk'. apply Hks. now right.
Qed.

(** ** What well-formedness gives *)

Lemma wf_fresh d v : wf_dom d = true -> In v (all_uids d) -> v < next_uid d.
Proof.
  unfold wf_dom. intros H Hin. apply andb_prop in H as [_ H].
  rewrite forallb_forall in H. apply Nat.ltb_lt. now apply H.
Qed.

Lemma located_in_all v d p : locate v d = Some p -> In v (all_uids d).
Proof.
  unfold locate. intros H. apply find_some in H as [Hin E].
  apply Nat.eqb_eq in E. subst v. rewrite <- everything_uids.
  apply in_map_iff. now exists p.
Qed.

Lemma elem_of_in_all v d : In v (all_uids d) -> exists e, elem_of v d = Some e.
Proof.
  intros H. rewrite elem_of_node. unfold node_of, all_uids in *.
  rewrite <- uids_flat in H. destruct (find_some_uids _ _ H) as [n Hn].
  rewrite Hn. now exists (el n).
Qed.

Lemma doc_in_all v d : In v (uids (doc d)) -> In v (all_uids d).
Proof. intros H. unfold all_uids, forest. simpl. apply in_or_app. now left. Qed.

Lemma connected_in_doc v d : connected v d = true <-> In v (uids (doc d)).
Proof.
  unfold connected. rewrite existsb_exists. split.
  - intros [x [Hx E]]. apply Nat.eqb_eq in E. now subst.
  - intros H. exists v. split; [exact H | apply Nat.eqb_refl].
Qed.

Lemma first_uid_in l v :
  first_uid l = Some v -> In v (map (fun p => uid (snd p)) l).
Proof. destruct l as [|p r]; simpl; [discriminate|]. intros [= <-]. now left. Qed.

Lemma filter_uids_in {A} (f : A -> bool) (g : A -> nat) l v :
  In v (map g (filter f l)) -> In v (map g l).
Proof.
  rewrite !in_map_iff. intros [x [E Hx]]. apply filter_In in Hx as [Hx _]. now exists x.
Qed.

Lemma doc_query_all_in sel d v : In v (doc_query_all sel d) -> In v (uids (doc d)).
Proof.
  unfold doc_query_all. intros H. apply filter_uids_in in H.
  unfold uids. now rewrite <- walk_snd with (anc := []), map_map.
Qed.

Lemma doc_query_in sel d v : doc_query sel d = Some v -> In v (uids (doc d)).
Proof.
  unfold doc_query. intros H. apply first_uid_in in H.
  now apply (doc_query_all_in sel).
Qed.

Lemma doc_query_connected sel d v : doc_query sel d = Some v -> connected v d = true.
Proof. intros H. apply connected_in_doc. now apply doc_query_in in H. Qed.

Lemma body_in_doc d b : body_of d = Some b -> In b (uids (doc d)).
Proof.
  unfold body_of. destruct (find _ (kids (doc d))) as [k|] eqn:E; [|discriminate].
  simpl. intros [= <-]. apply find_some in E as [Hin _].
  destruct (doc d) as [w e ks]. simpl in *. right.
  apply in_map. apply in_flat_map. exists k. split; [exact Hin|].
  destruct k. simpl. now left.
Qed.

End KidsFacts.

(** ** Attributes and classes *)

Module ElemFacts.
Import Dom.

Lemma assoc_set_same k v l : assoc k (assoc_set k v l) = Some v.
Proof.
  induction l as [|[k' v'] r IHr]; simpl.
  - now rewrite String.eqb_refl.
  - destruct (String.eqb k' k) eqn:E; simpl.
    + now rewrite String.eqb_refl.
    + now rewrite E.
Qed.

Lemma assoc_set_other k k' v l : k' <> k -> assoc k' (assoc_set k v l) = assoc k' l.
Proof.
  intros Hne. induction l as [|[k0 v0] r IHr]; simpl.
  - apply String.eqb_neq in Hne. rewrite String.eqb_sym. now rewrite Hne.
  - destruct (String.eqb k0 k) eqn:E; simpl.
    + apply String.eqb_eq in E. subst k0.
      apply not_eq_sym in Hne. apply String.eqb_neq in Hne. now rewrite Hne.
    + destruct (String.eqb k0 k'); [reflexivity | exact IHr].
Qed.

Lemma assoc_remove_same k l :
  assoc k (filter (fun kv => negb (String.eqb (fst kv) k)) l) = None.
Proof.
  induction l as [|[k' v'] r IHr]; simpl; [reflexivity|].
  destruct (String.eqb k' k) eqn:E; simpl; [exact IHr | now rewrite E].
Qed.

Lemma assoc_remove_other k k' l :
  k' <> k -> assoc k' (filter (fun kv => negb (String.eqb (fst kv) k)) l) = assoc k' l.
Proof.
  intros Hne. induction l as [|[k0 v0] r IHr]; simpl; [reflexivity|].
  destruct (String.eqb k0 k) eqn:E; simpl.
  - apply String.eqb_eq in E. subst k0.
    apply not_eq_sym in Hne. apply String.eqb_neq in Hne. now rewrite Hne.
  - now rewrite IHr.
Qed.

Lemma get_attr_set_same a v e : get_attr a (set_attr a v e) = Some v.
Proof. apply assoc_set_same. Qed.

Lemma get_attr_set_other a b v e : b <> a -> get_attr b (set_attr a v e) = get_attr b e.
Proof. apply assoc_set_other. Qed.

Lemma get_attr_remove_same a e : get_attr a (remove_attr a e) = None.
Proof. apply assoc_remove_same. Qed.

Lemma get_attr_remove_other a b e : b <> a -> get_attr b (remove_attr a e) = get_attr b e.
Proof. apply assoc_remove_other. Qed.

Lemma has_class_add_same c e : has_class c (add_class c e) = true.
Proof.
  unfold add_class, has_class at 1. simpl.
  destruct (has_class c e) eqn:E; [exact E|].
  rewrite existsb_app. simpl. rewrite String.eqb_refl. apply orb_true_r.
Qed.

Lemma has_class_add_other c c' e : c' <> c -> has_class c' (add_class c e) = has_class c' e.
Proof.
  intros Hne. unfold add_class, has_class at 1. simpl.
  destruct (has_class c e); [reflexivity|].
  rewrite existsb_app. simpl. apply String.eqb_neq in Hne. rewrite Hne.
  unfold has_class. now rewrite !orb_false_r.
Qed.

Lemma has_class_remove_same c e : has_class c (remove_class c e) = false.
Proof.
  unfold remove_class, has_class. simpl.
  induction (classes e) as [|c' r IHr]; simpl; [reflexivity|].
  destruct (String.eqb c c') eqn:E; simpl; [exact IHr | now rewrite E].
Qed.

Lemma has_class_remove_other c c' e :
  c' <> c -> has_class c' (remove_class c e) = has_class c' e.
Proof.
  intros Hne. unfold remove_class, has_class. simpl.
  induction (classes e) as [|c0 r IHr]; simpl; [reflexivity|].
  destruct (String.eqb c c0) eqn:E; simpl.
  - apply String.eqb_eq in E. subst c0. apply String.eqb_neq in Hne.
    rewrite Hne. exact IHr.
  - now rewrite IHr.
Qed.

End ElemFacts.

(* ================================================================== *)
(** * DarkMode.astro: the state after a load *)
(* ================================================================== *)

Module DarkModeFacts.
Import Dom Page Api Shape DomFacts KidsFacts ElemFacts.

Ltac step :=
  unfold bind, ret, gets, update, deref, throw, with_dom, with_env,
    with_events, with_vars; simpl.

Lemma enableDarkMode_run p store b t :
  body_of (dom p) = Some b ->
  darkModeToggle (vars p) = Some t ->
  DarkMode.enableDarkMode store p
  = (Ok tt,
     mkPage (update_elem t (set_attr "aria-pressed" "true")
               (set_kids t (DarkMode.sun_icon (next_uid (dom p))) 2
                  (update_elem b (add_class "darkmode") (dom p))))
            (events p)
            (if store
             then mkEnv (assoc_set "darkMode" "enabled" (storage (env p)))
                        (prefersDark (env p)) (console (env p)) (uncaught (env p))
             else env p)
            (vars p)).
Proof.
  intros Hb Ht.
  unfold DarkMode.enableDarkMode, document_body, classList_add, set_innerHTML,
    setAttribute, localStorage_setItem. step.
  rewrite Hb. simpl. rewrite Ht. simpl. now destruct store.
Qed.

Lemma disableDarkMode_run p store b t :
  body_of (dom p) = Some b ->
  darkModeToggle (vars p) = Some t ->
  DarkMode.disableDarkMode store p
  = (Ok tt,
     mkPage (update_elem t (set_attr "aria-pressed" "false")
               (set_kids t (DarkMode.moon_icon (next_uid (dom p))) 2
                  (update_elem b (remove_class "darkmode") (dom p))))
            (events p)
            (if store
             then mkEnv (assoc_set "darkMode" "disabled" (storage (env p)))
                        (prefersDark (env p)) (console (env p)) (uncaught (env p))
             else env p)
            (vars p)).
Proof.
  intros Hb Ht.
  unfold DarkMode.disableDarkMode, document_body, classList_remove, set_innerHTML,
    setAttribute, localStorage_setItem. step.
  rewrite Hb. simpl. rewrite Ht. simpl. now destruct store.
Qed.

(** The body's classes, the toggle's [aria-pressed] and the toggle's
    children after the three writes of [enableDarkMode] and
    [disableDarkMode]; the toggle may be outside the document. *)
Section Writes.
Variables (d : dom_state) (b t : nat) (g : elem -> elem) (v : string).
Variable icon : nat -> list node.
Hypothesis Hwf : wf_dom d = true.
Hypothesis Hb : In b (uids (doc d)).
Hypothesis Ht : In t (all_uids d).
Hypothesis Hout : ~ In b (inside t d).
Hypothesis Hicon : forall u x, In x (flat_map uids (icon u)) -> u <= x.

Let d' := update_elem t (set_attr "aria-pressed" v)
            (set_kids t (icon (next_uid d)) 2 (update_elem b g d)).

Lemma body_after :
  exists e, elem_of b d = Some e
            /\ elem_of b d' = Some (at_uid t (set_attr "aria-pressed" v) b (g e)).
Proof.
  destruct (elem_of_in_all b d (doc_in_all _ _ Hb)) as [e He].
  exists e. split; [exact He|]. unfold d'.
  rewrite elem_of_update_elem, elem_of_set_kids.
  - rewrite elem_of_update_elem, He. simpl. now rewrite at_uid_same.
  - right. split.
    + now rewrite inside_update_elem.
    + intros Hin. apply Hicon in Hin. simpl in Hin.
      pose proof (wf_fresh d b Hwf (doc_in_all _ _ Hb)). lia.
Qed.

Lemma toggle_after : attr_of t "aria-pressed" d' = Some v.
Proof.
  destruct (elem_of_in_all t d Ht) as [e He].
  unfold attr_of, d'.
  rewrite elem_of_update_elem, elem_of_set_kids by now left.
  rewrite elem_of_update_elem, He. simpl.
  rewrite at_uid_same. apply get_attr_set_same.
Qed.

Lemma icon_after : option_map kids (node_of t d') = Some (icon (next_uid d)).
Proof.
  destruct (elem_of_in_all t d Ht) as [e He].
  rewrite elem_of_node in He.
  destruct (node_of t d) as [x|] eqn:Ex; [|discriminate].
  unfold d'.
  rewrite node_of_update_elem, node_of_set_kids_self, node_of_update_elem, Ex.
  destruct x as [w e' ks]. simpl. f_equal.
  assert (Hfresh : forall k, In k (icon (next_uid d)) -> ~ In t (uids k)).
  { intros k Hk Hin.
    assert (Hx : In t (flat_map uids (icon (next_uid d))))
      by (apply in_flat_map; now exists k).
    apply Hicon in Hx. pose proof (wf_fresh d t Hwf Ht). lia. }
  induction (icon (next_uid d)) as [|k r IHr]; simpl; [reflexivity|].
  f_equal.
  - apply map_elems_absent. apply Hfresh. now left.
  - apply IHr. intros k' Hk'. apply Hfresh. now right.
Qed.
End Writes.

Lemma icon_fresh attrs u x : In x (flat_map uids (DarkMode.toggle_icon attrs u)) -> u <= x.
Proof. simpl. intros [H|[H|[]]]; lia. Qed.

Lemma class_after_attr t a v b c e :
  has_class c (at_uid t (set_attr a v) b e) = has_class c e.
Proof. unfold at_uid. now destruct (Nat.eqb b t). Qed.

(** What [applyDarkMode] leaves, for a page with a body and a toggle. *)
Lemma applyDarkMode_run p b t :
  wf_dom (dom p) = true ->
  body_of (dom p) = Some b ->
  darkModeToggle (vars p) = Some t ->
  In t (all_uids (dom p)) ->
  ~ In b (inside t (dom p)) ->
  let on := resolved (darkMode (vars p)) (prefersDark (env p)) in
  exists p',
    DarkMode.applyDarkMode p = (Ok tt, p')
    /\ class_on b "darkmode" (dom p') = on
    /\ attr_of t "aria-pressed" (dom p') = Some (if on then "true" else "false")
    /\ events p' = events p
    /\ vars p' = vars p
    /\ (darkMode (vars p) = None -> env p' = env p)
    /\ option_map kids (node_of t (dom p'))
       = Some (if on then DarkMode.sun_icon (next_uid (dom p))
               else DarkMode.moon_icon (next_uid (dom p))).
Proof.
  intros Hwf Hb Ht Hin Hout on.
  pose proof (body_in_doc _ _ Hb) as Hbin.
  assert (En : forall store, exists p',
             DarkMode.enableDarkMode store p = (Ok tt, p')
             /\ class_on b "darkmode" (dom p') = true
             /\ attr_of t "aria-pressed" (dom p') = Some "true"
             /\ events p' = events p /\ vars p' = vars p
             /\ (store = false -> env p' = env p)
             /\ option_map kids (node_of t (dom p'))
                = Some (DarkMode.sun_icon (next_uid (dom p)))).
  { intros store. eexists. split; [apply (enableDarkMode_run p store b t Hb Ht)|].
    simpl. repeat split.
    - destruct (body_after (dom p) b t (add_class "darkmode") "true"
                  DarkMode.sun_icon Hwf Hbin Hout (icon_fresh _)) as [e [_ He]].
      unfold class_on. rewrite He. rewrite class_after_attr.
      apply has_class_add_same.
    - apply (toggle_after (dom p) b t); assumption.
    - now intros ->.
    - apply (icon_after (dom p) b t (add_class "darkmode") "true"
               DarkMode.sun_icon Hwf Hin (icon_fresh _)). }
  assert (Dis : forall store, exists p',
             DarkMode.disableDarkMode store p = (Ok tt, p')
             /\ class_on b "darkmode" (dom p') = false
             /\ attr_of t "aria-pressed" (dom p') = Some "false"
             /\ events p' = events p /\ vars p' = vars p
             /\ (store = false -> env p' = env p)
             /\ option_map kids (node_of t (dom p'))
                = Some (DarkMode.moon_icon (next_uid (dom p)))).
  { intros store. eexists. split; [apply (disableDarkMode_run p store b t Hb Ht)|].
    simpl. repeat split.
    - destruct (body_after (dom p) b t (remove_class "darkmode") "false"
                  DarkMode.moon_icon Hwf Hbin Hout (icon_fresh _)) as [e [_ He]].
      unfold class_on. rewrite He. rewrite class_after_attr.
      apply has_class_remove_same.
    - apply (toggle_after (dom p) b t); assumption.
    - now intros ->.
    - apply (icon_after (dom p) b t (remove_class "darkmode") "false"
               DarkMode.moon_icon Hwf Hin (icon_fresh _)). }
  assert (Chk : exists p',
             DarkMode.checkPreference false p = (Ok tt, p')
             /\ class_on b "darkmode" (dom p') = prefersDark (env p)
             /\ attr_of t "aria-pressed" (dom p')
                = Some (if prefersDark (env p) then "true" else "false")
             /\ events p' = events p /\ vars p' = vars p /\ env p' = env p
             /\ option_map kids (node_of t (dom p'))
                = Some (if prefersDark (env p)
                        then DarkMode.sun_icon (next_uid (dom p))
                        else DarkMode.moon_icon (next_uid (dom p)))).
  { unfold DarkMode.checkPreference, matchMedia_prefers_dark. step.
    destruct (prefersDark (env p)).
    - destruct (En false) as [p' [E [H1 [H2 [H3 [H4 [H5 H6]]]]]]].
      exists p'. repeat split; auto.
    - destruct (Dis false) as [p' [E [H1 [H2 [H3 [H4 [H5 H6]]]]]]].
      exists p'. repeat split; auto. }
  unfold DarkMode.applyDarkMode. step. subst on. unfold resolved.
  destruct (darkMode (vars p)) as [v|].
  - destruct (String.eqb v "enabled").
    + destruct (En true) as [p' [E [H1 [H2 [H3 [H4 [_ H6]]]]]]].
      exists p'. repeat split; auto. discriminate.
    + destruct (String.eqb v "disabled").
      * destruct (Dis true) as [p' [E [H1 [H2 [H3 [H4 [_ H6]]]]]]].
        exists p'. repeat split; auto. discriminate.
      * destruct Chk as [p' [E [H1 [H2 [H3 [H4 [H5 H6]]]]]]].
        exists p'. repeat split; auto.
  - destruct Chk as [p' [E [H1 [H2 [H3 [H4 [H5 H6]]]]]]].
    exists p'. repeat split; auto.
Qed.

(** C5.  A load of the dark-mode script on a page with a body and a
    toggle button (the body not being inside the button) ends with the
    state that the stored preference, then the system's preferred
    scheme, then "disabled" decide; the body carries the class
    [darkmode] exactly in the enabled state and the toggle's
    [aria-pressed] says the same.  With nothing stored and a system
    preference for dark the state is enabled and the storage is left as
    it was; with "disabled" stored the state is disabled whatever the
    system prefers. *)
Theorem C5_dark_mode_initial_state (p : page) (b t : nat) :
  wf_dom (dom p) = true ->
  body_of (dom p) = Some b ->
  doc_query [Just [Class "darkmode-toggle"]] (dom p) = Some t ->
  ~ In b (inside t (dom p)) ->
  let stored := assoc "darkMode" (storage (env p)) in
  let p' := snd (DarkMode.script p) in
  fst (DarkMode.script p) = Ok tt
  /\ class_on b "darkmode" (dom p') = resolved stored (prefersDark (env p))
  /\ attr_of t "aria-pressed" (dom p')
     = Some (if resolved stored (prefersDark (env p)) then "true" else "false")
  /\ (stored = None -> prefersDark (env p) = true ->
      class_on b "darkmode" (dom p') = true
      /\ storage (env p') = storage (env p)
      /\ assoc "darkMode" (storage (env p')) = None)
  /\ (stored = Some "disabled" -> class_on b "darkmode" (dom p') = false).
Proof.
  intros Hwf Hb Ht Hout stored p'.
  set (p1 := mkPage (dom p) (events p) (env p)
               (mkVars (modals (vars p)) (trapFocusController (vars p))
                  (keydownController (vars p)) (accordionItems (vars p))
                  stored (Some t) (skipLink (vars p)) (window_close (vars p))
                  (window_toggleAccordionItem (vars p)) (window_onresize (vars p)))).
  destruct (applyDarkMode_run p1 b t Hwf Hb eq_refl
              (doc_in_all _ _ (doc_query_in _ _ _ Ht)) Hout)
    as [p2 [E [Hc [Ha [He [Hv [Hs _]]]]]]].
  assert (R : DarkMode.script p
              = addEventListener OnDocument AfterSwap DarkModeAfterSwap None
                  (snd (addEventListener (OnElement t) Click DarkModeClick None p2))).
  { unfold DarkMode.script, localStorage_getItem, DarkMode.set_darkMode,
      querySelector, DarkMode.set_darkModeToggle. step.
    rewrite Ht. fold stored. fold p1. rewrite E. reflexivity. }
  subst p'. rewrite R. simpl in Hc, Ha |- *.
  split; [reflexivity|]. split; [exact Hc|]. split; [exact Ha|]. split.
  - intros Hnone Hpref. rewrite Hc, Hnone. simpl. rewrite Hpref.
    rewrite (Hs Hnone). simpl. fold stored. now rewrite Hnone.
  - intros Hd. rewrite Hc, Hd. reflexivity.
Qed.

End DarkModeFacts.

(* ================================================================== *)
(** * SkipLinks.astro: the fallback chain of the key handler *)
(* ================================================================== *)

Module SkipLinksFacts.
Import Dom Page Api Shape DomFacts KidsFacts ElemFacts.
Import DarkModeFacts.

Lemma locate_elem v d e :
  elem_of v d = Some e -> exists anc n, locate v d = Some (anc, n) /\ el n = e /\ uid n = v.
Proof.
  unfold elem_of. destruct (locate v d) as [[anc n]|] eqn:E; simpl; [|discriminate].
  intros [= <-]. exists anc, n. repeat split.
  unfold locate in E. apply find_some in E as [_ E]. now apply Nat.eqb_eq in E.
Qed.

(** An anchor is its own closest anchor. *)
Lemma closest_anchor a d e :
  elem_of a d = Some e -> tag e = "a" ->
  closest_of a [Just [Tag "a"]] d = Some a.
Proof.
  intros He Ht. destruct (locate_elem _ _ _ He) as [anc [n [L [En Un]]]].
  unfold closest_of. rewrite L. simpl. unfold matches. simpl.
  rewrite En, Ht. simpl. now rewrite Un.
Qed.

(** C8.  [SkipLinks.astro]'s script is a module script: its first
    statement reads [this.dataset] with [this] undefined and throws, on
    every page, before the key listener is put on the link.  On three
    pages with the rendered skip link (target and heading, heading
    only, neither) the script leaves the page as it found it, and an
    Enter keydown on the link then runs no listener: the document, the
    focus, the console are as before, no element has got a [tabindex].
    The listener itself, run on such a keydown, focuses the target on
    the first page and the heading on the second. *)
Theorem C8_skip_link_listener_is_never_installed :
  let enter := Events.keydown (Some 3) "Enter" false in
  let after (p : page) := snd (Events.dispatch enter (snd (SkipLinks.script p))) in
  (forall p : page, SkipLinks.script p = (Throw TypeError, p))
  /\ elem_of 3 (dom Samples.skip_page) = Some Samples.skip_anchor
  /\ doc_query [Just [Id "main-content"]] (dom Samples.skip_page) = Some 5
  /\ listeners (events (after Samples.skip_page)) = []
  /\ dom (after Samples.skip_page) = dom Samples.skip_page
  /\ env (after Samples.skip_page) = env Samples.skip_page
  /\ active (dom (after Samples.skip_page)) = None
  /\ attr_of 5 "tabindex" (dom (after Samples.skip_page)) = None
  /\ doc_query [Just [Id "main-content"]] (dom Samples.skip_heading_page) = None
  /\ doc_query [Just [Tag "h1"]] (dom Samples.skip_heading_page) = Some 4
  /\ dom (after Samples.skip_heading_page) = dom Samples.skip_heading_page
  /\ active (dom (after Samples.skip_heading_page)) = None
  /\ attr_of 4 "tabindex" (dom (after Samples.skip_heading_page)) = None
  /\ doc_query [Just [Tag "h1"]] (dom Samples.skip_bare_page) = None
  /\ dom (after Samples.skip_bare_page) = dom Samples.skip_bare_page
  /\ console (env (after Samples.skip_bare_page)) = []
  /\ active (dom (snd (SkipLinks.onKeydown enter Samples.skip_page))) = Some 5
  /\ active (dom (snd (SkipLinks.onKeydown enter Samples.skip_heading_page))) = Some 4
  /\ console (env (snd (SkipLinks.onKeydown enter Samples.skip_bare_page)))
     = [SkipLinks.diagnostic].
Proof.
  split; [intros p; reflexivity|].
  vm_compute. repeat split.
Qed.

End SkipLinksFacts.

(* ================================================================== *)
(** * Queries under writes, and where query results live *)
(* ================================================================== *)

Module QueryFacts.
Import Dom Page Api Shape DomFacts KidsFacts ElemFacts.

Lemma existsb_map {A B} (g : A -> B) (f : B -> bool) (l : list A) :
  existsb f (map g l) = existsb (fun a => f (g a)) l.
Proof.
  induction l as [|a r IHr]; simpl; [reflexivity | now rewrite IHr].
Qed.

Lemma existsb_ext {A} (f g : A -> bool) (l : list A) :
  (forall a, f a = g a) -> existsb f l = existsb g l.
Proof.
  intros H. induction l as [|a r IHr]; simpl; [reflexivity | now rewrite H, IHr].
Qed.

Lemma walk_map_elems_root h (n : node) :
  walk [] (map_elems h n)
  = map (fun p => (map (map_elems h) (fst p), map_elems h (snd p))) (walk [] n).
Proof. exact (walk_map_elems h n []). Qed.

Lemma matches_simple_elem s n : matches_simple s n = matches_elem s (el n).
Proof. now destruct s. Qed.

Section Inert.
Variables (sel : selector) (u : nat) (f : elem -> elem).
Hypothesis Hf : inert sel f.

Let F := map_elems (at_uid u f).

Lemma inert_simple s n : In s (simples_of sel) -> matches_simple s (F n) = matches_simple s n.
Proof.
  intros Hs. rewrite !matches_simple_elem. unfold F. rewrite el_map_elems.
  unfold at_uid. destruct (Nat.eqb (uid n) u); [now apply Hf | reflexivity].
Qed.

Lemma inert_compound c n :
  (forall s, In s c -> In s (simples_of sel)) ->
  matches_compound c (F n) = matches_compound c n.
Proof.
  intros Hc. unfold matches_compound. induction c as [|s r IHr]; simpl; [reflexivity|].
  rewrite inert_simple by (apply Hc; now left).
  rewrite IHr; [reflexivity|]. intros s' Hs'. apply Hc. now right.
Qed.

Lemma inert_complex x anc n :
  In x sel -> matches_complex x (map F anc) (F n) = matches_complex x anc n.
Proof.
  intros Hx.
  assert (Hsub : forall s,
            In s (match x with Just c => c | Inside a c => (a ++ c)%list end) ->
            In s (simples_of sel)).
  { intros s Hs. unfold simples_of. apply in_flat_map. now exists x. }
  destruct x as [c|a c]; simpl.
  - apply inert_compound. exact Hsub.
  - rewrite inert_compound by (intros s Hs; apply Hsub, in_or_app; now right).
    f_equal. rewrite existsb_map. apply existsb_ext. intros y.
    apply inert_compound. intros s Hs. apply Hsub, in_or_app. now left.
Qed.

Lemma inert_matches anc n : matches sel (map F anc, F n) = matches sel (anc, n).
Proof.
  unfold matches. simpl.
  assert (H : forall xs, (forall x, In x xs -> In x sel) ->
            existsb (fun x => matches_complex x (map F anc) (F n)) xs
            = existsb (fun x => matches_complex x anc n) xs).
  { induction xs as [|x r IHr]; simpl; intros Hxs; [reflexivity|].
    rewrite inert_complex by (apply Hxs; now left).
    rewrite IHr; [reflexivity|]. intros y Hy. apply Hxs. now right. }
  apply H. auto.
Qed.

Lemma filter_walk_inert (l : list (list node * node)) :
  filter (matches sel) (map (fun p => (map F (fst p), F (snd p))) l)
  = map (fun p => (map F (fst p), F (snd p))) (filter (matches sel) l).
Proof.
  induction l as [|[anc n] r IHr]; simpl; [reflexivity|].
  rewrite inert_matches. destruct (matches sel (anc, n)); simpl; now rewrite IHr.
Qed.

Lemma uids_mapped (l : list (list node * node)) :
  map (fun p => uid (snd p)) (map (fun p => (map F (fst p), F (snd p))) l)
  = map (fun p => uid (snd p)) l.
Proof.
  rewrite map_map. apply map_ext. intros [anc n]. simpl. apply uid_map_elems.
Qed.

Lemma first_uid_mapped (l : list (list node * node)) :
  first_uid (map (fun p => (map F (fst p), F (snd p))) l) = first_uid l.
Proof.
  destruct l as [|[anc n] r]; simpl; [reflexivity|].
  unfold F. now rewrite uid_map_elems.
Qed.

Lemma doc_query_all_inert d : doc_query_all sel (update_elem u f d) = doc_query_all sel d.
Proof.
  unfold doc_query_all, update_elem. cbn [doc].
  rewrite walk_map_elems_root.
  fold F. now rewrite filter_walk_inert, uids_mapped.
Qed.

Lemma doc_query_inert d : doc_query sel (update_elem u f d) = doc_query sel d.
Proof.
  unfold doc_query, update_elem. cbn [doc].
  rewrite walk_map_elems_root.
  fold F. now rewrite filter_walk_inert, first_uid_mapped.
Qed.

Lemma below_update_elem v d :
  below v (update_elem u f d)
  = map (fun p => (map F (fst p), F (snd p))) (below v d).
Proof.
  unfold below. rewrite locate_update_elem.
  destruct (locate v d) as [[anc n]|]; simpl; [|reflexivity].
  rewrite kids_map_elems, flat_map_map, map_flat_map.
  apply flat_map_ext. intros k.
  apply (walk_map_elems (at_uid u f) k (n :: anc)).
Qed.

Lemma el_query_all_inert v d : el_query_all v sel (update_elem u f d) = el_query_all v sel d.
Proof.
  unfold el_query_all. rewrite below_update_elem.
  now rewrite filter_walk_inert, uids_mapped.
Qed.

Lemma el_query_inert v d : el_query v sel (update_elem u f d) = el_query v sel d.
Proof.
  unfold el_query. rewrite below_update_elem.
  now rewrite filter_walk_inert, first_uid_mapped.
Qed.
End Inert.

Lemma below_uids_update_elem u f v d :
  map (fun p => uid (snd p)) (below v (update_elem u f d))
  = map (fun p => uid (snd p)) (below v d).
Proof.
  rewrite below_update_elem. apply uids_mapped.
Qed.

(** ** Sub-walks *)

Lemma walk_sub (t : node) : forall a0 a y,
  In (a, y) (walk a0 t) ->
  forall q, In q (flat_map (walk (y :: a)) (kids y)) -> In q (walk a0 t).
Proof.
  induction t as [w e ks IH] using node_induction. intros a0 a y Hin q Hq.
  simpl in Hin. destruct Hin as [E|Hin].
  - inversion E; subst. simpl. right. exact Hq.
  - simpl. right. apply in_flat_map in Hin as [k [Hk Hin]].
    apply in_flat_map. exists k. split; [exact Hk|].
    rewrite Forall_forall in IH. exact (IH k Hk _ _ _ Hin q Hq).
Qed.

Lemma locate_in_everything v d anc n :
  locate v d = Some (anc, n) -> In (anc, n) (everything d) /\ uid n = v.
Proof.
  unfold locate. intros H. apply find_some in H as [Hin E].
  split; [exact Hin | now apply Nat.eqb_eq in E].
Qed.

Lemma below_in_everything v d q : In q (below v d) -> In q (everything d).
Proof.
  unfold below. destruct (locate v d) as [[anc n]|] eqn:L; [|contradiction].
  intros Hq. apply locate_in_everything in L as [Hin _].
  unfold everything in *. apply in_flat_map in Hin as [t [Ht Hin]].
  apply in_flat_map. exists t. split; [exact Ht|].
  exact (walk_sub t [] anc n Hin q Hq).
Qed.

Lemma below_located v d q :
  In q (below v d) -> exists anc n, locate (uid (snd q)) d = Some (anc, n).
Proof.
  intros Hq. apply below_in_everything in Hq.
  unfold locate. destruct (find _ (everything d)) as [[anc n]|] eqn:E.
  - now exists anc, n.
  - exfalso. apply (find_none _ _ E) in Hq. simpl in Hq.
    now rewrite Nat.eqb_refl in Hq.
Qed.

(** In the document: the first tree of the forest. *)
Lemma locate_connected v d :
  connected v d = true ->
  exists anc n, locate v d = Some (anc, n) /\ In (anc, n) (walk [] (doc d)).
Proof.
  intros Hc. apply connected_in_doc in Hc.
  unfold locate, everything, forest. simpl. rewrite find_app.
  unfold uids in Hc. rewrite <- (walk_snd (doc d) []), map_map in Hc.
  destruct (find (fun p => Nat.eqb (uid (snd p)) v) (walk [] (doc d)))
    as [[anc n]|] eqn:E.
  - exists anc, n. split; [reflexivity|]. now apply find_some in E.
  - exfalso. apply in_map_iff in Hc as [q [Eq Hq]].
    apply (find_none _ _ E) in Hq. rewrite Eq in Hq.
    now rewrite Nat.eqb_refl in Hq.
Qed.

Lemma below_connected v d q :
  connected v d = true -> In q (below v d) -> connected (uid (snd q)) d = true.
Proof.
  intros Hc Hq. destruct (locate_connected v d Hc) as [anc [n [L Hin]]].
  unfold below in Hq. rewrite L in Hq.
  pose proof (walk_sub (doc d) [] anc n Hin q Hq) as Hq'.
  apply connected_in_doc. unfold uids.
  rewrite <- (walk_snd (doc d) []), map_map.
  apply in_map_iff. now exists q.
Qed.

Lemma el_query_all_below v sel d x :
  In x (el_query_all v sel d) -> exists q, In q (below v d) /\ uid (snd q) = x.
Proof.
  unfold el_query_all. intros H. apply in_map_iff in H as [q [E Hq]].
  apply filter_In in Hq as [Hq _]. now exists q.
Qed.

Lemma el_query_below v sel d x :
  el_query v sel d = Some x -> exists q, In q (below v d) /\ uid (snd q) = x.
Proof.
  unfold el_query. intros H. apply first_uid_in in H.
  now apply (el_query_all_below v sel).
Qed.

Lemma el_query_connected v sel d x :
  connected v d = true -> el_query v sel d = Some x -> connected x d = true.
Proof.
  intros Hc H. apply el_query_below in H as [q [Hq <-]].
  now apply (below_connected v).
Qed.

End QueryFacts.

(* ================================================================== *)
(** * Modal.astro: binding and closing *)
(* ================================================================== *)

Module ModalFacts.
Import Dom Page Api Shape DomFacts KidsFacts ElemFacts QueryFacts.
Import DarkModeFacts.

(** ** Triggers are found the same way after the writes of the script *)

Lemma keeps_ids_inert f x : keeps_ids f -> inert [Just [Id x]] f.
Proof.
  intros Hf s [<-|[]] e. simpl. unfold attr_is. rewrite Hf; [reflexivity | now left].
Qed.

Lemma trigger_of_update_elem m f m' d :
  keeps_ids f -> trigger_of m' (update_elem m f d) = trigger_of m' d.
Proof.
  intros Hf. unfold trigger_of, attr_of. rewrite elem_of_update_elem.
  assert (E : match option_map (at_uid m f m') (elem_of m' d) with
              | Some e => get_attr "aria-labelledby" e
              | None => None
              end
              = match elem_of m' d with
                | Some e => get_attr "aria-labelledby" e
                | None => None
                end).
  { destruct (elem_of m' d) as [e|]; simpl; [|reflexivity].
    unfold at_uid. destruct (Nat.eqb m' m); [|reflexivity].
    apply Hf. now right. }
  rewrite E. destruct (css_ident _); [|reflexivity].
  apply doc_query_inert. now apply keeps_ids_inert.
Qed.

Lemma keeps_ids_remove_open : keeps_ids (remove_attr "open").
Proof.
  intros a e [->| ->]; apply get_attr_remove_other; discriminate.
Qed.

Lemma keeps_ids_set_open v : keeps_ids (set_attr "open" v).
Proof.
  intros a e [->| ->]; apply get_attr_set_other; discriminate.
Qed.

Lemma trigger_connected m d t : trigger_of m d = Some t -> connected t d = true.
Proof.
  unfold trigger_of. destruct (css_ident _); [|discriminate].
  apply doc_query_connected.
Qed.

(** ** One round of the binding loop *)

Lemma bindOne_dom m p : dom (snd (Modal.bindOne m p)) = dom p.
Proof.
  unfold Modal.bindOne, getAttribute, querySelector_in, querySelector_id,
    querySelector, addEventListener. step.
  destruct (css_ident _); simpl; [|reflexivity].
  destruct (doc_query _ (dom p)); simpl; [|reflexivity].
  destruct (el_query m _ (dom p)); reflexivity.
Qed.

Lemma bindOne_missing m p x :
  attr_of m "aria-labelledby" (dom p) = Some x ->
  css_ident x = true ->
  trigger_of m (dom p) = None ->
  Modal.bindOne m p = (Throw (Modal.trigger_not_found (Some x)), p).
Proof.
  intros Hx Hi Ht. unfold trigger_of in Ht. rewrite Hx in Ht. simpl in Ht.
  rewrite Hi in Ht.
  unfold Modal.bindOne, getAttribute, querySelector_in, querySelector_id,
    querySelector. step.
  rewrite Hx. simpl. rewrite Hi. simpl. now rewrite Ht.
Qed.

Lemma bindOne_bound m p t b :
  trigger_of m (dom p) = Some t ->
  close_button_of m (dom p) = Some b ->
  Modal.bindOne m p
  = (Ok tt,
     with_events (fun e =>
       add_listener (OnElement b) Click ModalCloseModal None
         (add_listener (OnElement t) Click (ModalTriggerClick m) None e)) p).
Proof.
  intros Ht Hb. unfold trigger_of in Ht. unfold close_button_of in Hb.
  unfold Modal.bindOne, getAttribute, querySelector_in, querySelector_id,
    querySelector, addEventListener. step.
  destruct (css_ident _); [|discriminate]. simpl.
  rewrite Ht, Hb. reflexivity.
Qed.

(** The binding loop stops at the first dialog without a trigger. *)
Lemma bind_loop (ms : list nat) : forall (p : page) (m : nat),
  (forall m', In m' ms ->
     exists x b, attr_of m' "aria-labelledby" (dom p) = Some x
                 /\ css_ident x = true
                 /\ close_button_of m' (dom p) = Some b) ->
  In m ms ->
  trigger_of m (dom p) = None ->
  exists pre m0 x0 post,
    ms = (pre ++ m0 :: post)%list
    /\ attr_of m0 "aria-labelledby" (dom p) = Some x0
    /\ trigger_of m0 (dom p) = None
    /\ (forall m', In m' pre -> trigger_of m' (dom p) <> None)
    /\ fst (forEach pre Modal.bindOne p) = Ok tt
    /\ forEach ms Modal.bindOne p
       = (Throw (Modal.trigger_not_found (Some x0)),
          snd (forEach pre Modal.bindOne p)).
Proof.
  induction ms as [|m1 r IHr]; intros p m Hall Hin Hnone; [contradiction|].
  destruct (Hall m1 (or_introl eq_refl)) as [x1 [b1 [Hx1 [Hi1 Hb1]]]].
  destruct (trigger_of m1 (dom p)) as [t1|] eqn:T1.
  - assert (Hm : In m r).
    { destruct Hin as [->|Hin]; [congruence | exact Hin]. }
    pose proof (bindOne_bound m1 p t1 b1 T1 Hb1) as B1.
    set (p1 := with_events _ p) in B1.
    destruct (IHr p1 m) as [pre [m0 [x0 [post [E [Hx0 [T0 [Hpre [Hok Hrun]]]]]]]]].
    + intros m' Hm'. apply Hall. now right.
    + exact Hm.
    + exact Hnone.
    + exists (m1 :: pre), m0, x0, post. repeat split.
      * simpl. now rewrite E.
      * exact Hx0.
      * exact T0.
      * intros m' [<-|Hm']; [congruence | now apply Hpre].
      * simpl. unfold bind. rewrite B1. exact Hok.
      * simpl. unfold bind. rewrite B1. exact Hrun.
  - exists [], m1, x1, r. repeat split; try assumption.
    + intros m' [].
    + simpl. unfold bind. now rewrite (bindOne_missing m1 p x1 Hx1 Hi1 T1).
Qed.

(** No element with the id: the lookup of the trigger comes back empty. *)
Lemma no_such_id m d x :
  attr_of m "aria-labelledby" d = Some x ->
  css_ident x = true ->
  (forall n, In n (preorder (doc d)) -> get_attr "id" (el n) <> Some x) ->
  trigger_of m d = None.
Proof.
  intros Hx Hi Hno. unfold trigger_of. rewrite Hx. simpl. rewrite Hi.
  unfold doc_query.
  destruct (filter (matches [Just [Id x]]) (walk [] (doc d))) as [|q r] eqn:E;
    [reflexivity|].
  exfalso. assert (Hq : In q (filter (matches [Just [Id x]]) (walk [] (doc d))))
    by (rewrite E; now left).
  apply filter_In in Hq as [Hq Hm].
  apply (Hno (snd q)).
  - rewrite <- (walk_snd (doc d) []). now apply in_map.
  - unfold matches in Hm. simpl in Hm. rewrite !orb_false_r, andb_true_r in Hm.
    unfold attr_is in Hm. destruct (get_attr "id" (el (snd q))) as [w|]; [|discriminate].
    apply String.eqb_eq in Hm. now subst.
Qed.

(** C3.  Every dialog of the document carrying an identifier in
    [aria-labelledby] and having its close button: when for some dialog
    no element of the document has the id so named, the script at load
    and the after-swap listener both end in the thrown [Error], raised
    at the first dialog without a trigger; the page is left with the
    listeners of the dialogs before that one and nothing else: no
    listener for it or any later dialog, no [window.close], no
    after-swap listener. *)
Theorem C3_missing_trigger_throws (p : page) (m : nat) (x : string) :
  let ms := doc_query_all [Just [Class "modal"]] (dom p) in
  (forall m', In m' ms ->
     exists x' b, attr_of m' "aria-labelledby" (dom p) = Some x'
                  /\ css_ident x' = true
                  /\ close_button_of m' (dom p) = Some b) ->
  In m ms ->
  attr_of m "aria-labelledby" (dom p) = Some x ->
  (forall n, In n (preorder (doc (dom p))) -> get_attr "id" (el n) <> Some x) ->
  exists pre m0 x0 post,
    ms = (pre ++ m0 :: post)%list
    /\ attr_of m0 "aria-labelledby" (dom p) = Some x0
    /\ trigger_of m0 (dom p) = None
    /\ (forall m', In m' pre -> trigger_of m' (dom p) <> None)
    /\ Modal.afterSwap p
       = (Throw (Modal.trigger_not_found (Some x0)),
          snd (forEach pre Modal.bindOne p))
    /\ Modal.script p
       = (Throw (Modal.trigger_not_found (Some x0)),
          snd ((Modal.set_modals ms ;; forEach pre Modal.bindOne) p)).
Proof.
  intros ms Hall Hin Hx Hno.
  destruct (Hall m Hin) as [x' [b [Hx' [Hi _]]]].
  assert (x' = x) by congruence. subst x'.
  pose proof (no_such_id m (dom p) x Hx Hi Hno) as Hnone.
  destruct (bind_loop ms p m Hall Hin Hnone)
    as [pre [m0 [x0 [post [E [Hx0 [T0 [Hpre [Hok Hrun]]]]]]]]].
  exists pre, m0, x0, post.
  split; [exact E|]. split; [exact Hx0|]. split; [exact T0|]. split; [exact Hpre|].
  split.
  - unfold Modal.afterSwap, querySelectorAll. step. fold ms. exact Hrun.
  - set (p1 := snd (Modal.set_modals ms p)).
    destruct (bind_loop ms p1 m Hall Hin Hnone)
      as [pre' [m1 [x1 [post' [E' [Hx1 [T1 [Hpre' [Hok' Hrun']]]]]]]]].
    assert (pre' = pre /\ m1 = m0) as [-> ->].
    { clear - E E' T0 T1 Hpre Hpre'. change (dom p1) with (dom p) in *.
      rewrite E in E'. clear E.
      revert pre' E' Hpre'. induction pre as [|a r IHr]; intros [|a' r'] E' Hpre'.
      - now inversion E'.
      - exfalso. inversion E'; subst. apply (Hpre' a'); [now left | exact T0].
      - exfalso. inversion E'; subst. apply (Hpre m1); [now left | exact T1].
      - inversion E'; subst. destruct (IHr (fun m' H => Hpre m' (or_intror H)) r' H1
                                          (fun m' H => Hpre' m' (or_intror H))) as [-> ->].
        now split. }
    assert (x1 = x0) by (change (dom p1) with (dom p) in Hx1; congruence). subst x1.
    unfold Modal.script, querySelectorAll. step. fold ms.
    change (forEach ms Modal.bindOne (with_vars _ p))
      with (forEach ms Modal.bindOne p1).
    rewrite Hrun'. reflexivity.
Qed.

End ModalFacts.

(* ================================================================== *)
(** * Modal.astro: one open session *)
(* ================================================================== *)

Module SessionFacts.
Import Dom Page Api Shape DomFacts KidsFacts ElemFacts QueryFacts.
Import DarkModeFacts ModalFacts.

Lemma not_shared a h : session_handler h = true -> same_function a h = false.
Proof. destruct h; try discriminate; intros _; now destruct a. Qed.

Lemma trigger_not_shared a m : same_function a (ModalTriggerClick m) = false.
Proof. now destruct a. Qed.

Lemma add_listener_new t ty h sig e :
  signal_aborted sig e = false ->
  (forall a, same_function a h = false) ->
  add_listener t ty h sig e
  = mkEvents (listeners e ++ [mkListener (next_lid e) t ty h sig])
             (S (next_lid e)) (next_controller e) (aborted e)
             (defaultPrevented e) (propagationStopped e).
Proof.
  intros Hs Hh. unfold add_listener. rewrite Hs. simpl.
  assert (E : already_listening t ty h (listeners e) = false).
  { unfold already_listening. induction (listeners e) as [|a r IHr]; simpl; [reflexivity|].
    rewrite Hh, andb_false_r. exact IHr. }
  now rewrite E.
Qed.

Lemma fresh_controller e c :
  wf_events e = true -> next_controller e <= c -> existsb (Nat.eqb c) (aborted e) = false.
Proof.
  unfold wf_events. intros Hwf Hc.
  destruct (existsb (Nat.eqb c) (aborted e)) eqn:E; [|reflexivity].
  apply existsb_exists in E as [x [Hx Ex]]. apply Nat.eqb_eq in Ex. subst x.
  rewrite forallb_forall in Hwf. apply Hwf in Hx. apply Nat.ltb_lt in Hx. lia.
Qed.

Lemma session_added e m inner c :
  existsb (Nat.eqb c) (aborted e) = false ->
  existsb (Nat.eqb (S c)) (aborted e) = false ->
  add_listener (OnElement inner) Click ModalInnerClick (Some (S c))
    (add_listener (OnElement m) Click ModalBackdropClick (Some (S c))
       (add_listener (OnElement m) Keydown ModalEscape (Some (S c))
          (add_listener OnDocument Keydown (ModalTrapFocus m) (Some c) e)))
  = mkEvents (listeners e ++ session (next_lid e) c m inner)
             (4 + next_lid e) (next_controller e) (aborted e)
             (defaultPrevented e) (propagationStopped e).
Proof.
  intros H1 H2.
  rewrite (add_listener_new OnDocument Keydown (ModalTrapFocus m) (Some c) e);
    [|exact H1 | intros a; now apply not_shared].
  rewrite (add_listener_new (OnElement m) Keydown ModalEscape);
    [|exact H2 | intros a; now apply not_shared].
  rewrite (add_listener_new (OnElement m) Click ModalBackdropClick);
    [|exact H2 | intros a; now apply not_shared].
  rewrite (add_listener_new (OnElement inner) Click ModalInnerClick);
    [|exact H2 | intros a; now apply not_shared].
  cbn [listeners next_lid next_controller aborted defaultPrevented propagationStopped].
  unfold session. now rewrite <- !app_assoc.
Qed.

(** ** Dispatch over listeners that are known *)

Lemma listening_app t ty l1 l2 :
  listening t ty (l1 ++ l2) = (listening t ty l1 ++ listening t ty l2)%list.
Proof. apply filter_app. Qed.

Lemma listening_none t ty ls :
  (forall l, In l ls -> l_type l <> ty) -> listening t ty ls = [].
Proof.
  intros H. unfold listening. induction ls as [|l r IHr]; simpl; [reflexivity|].
  assert (E : evtype_eqb (l_type l) ty = false).
  { pose proof (H l (or_introl eq_refl)) as Hl.
    destruct (l_type l), ty; try reflexivity; now contradiction Hl. }
  rewrite E, andb_false_r. apply IHr. intros l' Hl'. apply H. now right.
Qed.

Lemma invoke_nobody t ev p :
  listening t (ev_type ev) (listeners (events p)) = [] ->
  Events.invoke t ev p = (Ok tt, p).
Proof.
  intros H. unfold Events.invoke, bind, gets. unfold listening in H. now rewrite H.
Qed.

Lemma bubble_nobody ev path : forall p,
  propagationStopped (events p) = false ->
  (forall t, In t path -> Events.invoke t ev p = (Ok tt, p)) ->
  Events.bubble path ev p = (Ok tt, p).
Proof.
  induction path as [|t r IHr]; intros p Hs H; [reflexivity|].
  simpl. unfold bind, gets. rewrite (H t (or_introl eq_refl)). rewrite Hs.
  apply IHr; [exact Hs|]. intros t' Ht'. apply H. now right.
Qed.

Lemma bubble_through ev us rest : forall p,
  propagationStopped (events p) = false ->
  (forall u, In u us -> Events.invoke (OnElement u) ev p = (Ok tt, p)) ->
  Events.bubble (map OnElement us ++ rest) ev p = Events.bubble rest ev p.
Proof.
  induction us as [|u r IHr]; intros p Hs H; [reflexivity|].
  simpl. unfold bind, gets. rewrite (H u (or_introl eq_refl)). rewrite Hs.
  apply IHr; [exact Hs|]. intros u' Hu'. apply H. now right.
Qed.

(** An event nobody listens for only resets the flags. *)
Lemma dispatch_nobody ev p :
  (forall l, In l (listeners (events p)) -> l_type l <> ev_type ev) ->
  Events.dispatch ev p = (Ok tt, snd (Events.fresh_flags p)).
Proof.
  intros H. unfold Events.dispatch. unfold bind at 1.
  unfold Events.fresh_flags at 1. unfold update, with_events.
  unfold bind, gets.
  apply bubble_nobody; [reflexivity|].
  intros t _. apply invoke_nobody. apply listening_none. exact H.
Qed.

Lemma still_registered_in l p :
  In l (listeners (events p)) -> Events.still_registered l p = true.
Proof.
  intros H. unfold Events.still_registered. apply existsb_exists.
  exists l. split; [exact H | apply Nat.eqb_refl].
Qed.

(** The key listeners of a page with one open session and no other key
    listener. *)
Section OneSession.
Variables (q : page) (l0 : list listener) (n c m inner : nat).
Hypothesis Hls : listeners (events q) = (l0 ++ session n c m inner)%list.
Hypothesis Hl0 : forall l, In l l0 -> l_type l <> Keydown.
Hypothesis Hflag : propagationStopped (events q) = false.

Let trapL := mkListener n OnDocument Keydown (ModalTrapFocus m) (Some c).
Let escL := mkListener (S n) (OnElement m) Keydown ModalEscape (Some (S c)).

Lemma listening_element u :
  listening (OnElement u) Keydown (listeners (events q))
  = if Nat.eqb m u then [escL] else [].
Proof.
  rewrite Hls, listening_app, (listening_none _ _ l0 Hl0).
  unfold listening, session. simpl.
  rewrite !andb_false_r. destruct (Nat.eqb m u); reflexivity.
Qed.

Lemma listening_document :
  listening OnDocument Keydown (listeners (events q)) = [trapL].
Proof.
  rewrite Hls, listening_app, (listening_none _ _ l0 Hl0). reflexivity.
Qed.

Lemma escL_in : In escL (listeners (events q)).
Proof. rewrite Hls. apply in_or_app. right. simpl. tauto. Qed.

Lemma trapL_in : In trapL (listeners (events q)).
Proof. rewrite Hls. apply in_or_app. right. simpl. tauto. Qed.

Lemma invoke_element_quiet u t key shift :
  String.eqb key "Escape" = false ->
  Events.invoke (OnElement u) (Events.keydown t key shift) q = (Ok tt, q).
Proof.
  intros Hkey. unfold Events.invoke, bind, gets.
  change (filter _ (listeners (events q)))
    with (listening (OnElement u) Keydown (listeners (events q))).
  rewrite listening_element. destruct (Nat.eqb m u); [|reflexivity].
  simpl. unfold bind, gets. rewrite (still_registered_in escL q escL_in).
  unfold Events.guard. simpl. rewrite Hkey. reflexivity.
Qed.

(** A key other than Escape reaches the trap on the document and
    nothing else. *)
Lemma bubble_to_trap us t key shift :
  String.eqb key "Escape" = false ->
  Events.bubble (map OnElement us ++ [OnDocument]) (Events.keydown t key shift) q
  = (Ok tt, snd (Events.guard (Modal.trapFocus (Events.keydown t key shift) m) q)).
Proof.
  intros Hkey. rewrite bubble_through; [|exact Hflag|].
  2:{ intros u _. now apply invoke_element_quiet. }
  simpl. unfold bind at 1. unfold Events.invoke, bind at 1, gets at 1.
  change (filter _ (listeners (events q)))
    with (listening OnDocument Keydown (listeners (events q))).
  rewrite listening_document. simpl. unfold bind, gets, ret. cbv beta.
  rewrite (still_registered_in trapL q trapL_in).
  destruct (Events.guard _ q) as [[[]|e] q'] eqn:G.
  - simpl. now destruct (propagationStopped (events q')).
  - unfold Events.guard in G.
    destruct (Modal.trapFocus _ m q) as [[[]|e'] q'']; discriminate.
Qed.
End OneSession.

(** The selector of the script and the focusable elements of the
    description are the same test. *)
Lemma focusable_selector_spec anc n :
  matches Modal.focusable_selector (anc, n) = spec_focusable (el n).
Proof.
  unfold matches, Modal.focusable_selector, spec_focusable. simpl.
  rewrite !andb_true_r, !orb_false_r.
  rewrite (String.eqb_sym (tag (el n)) "a"), (String.eqb_sym (tag (el n)) "button"),
    (String.eqb_sym (tag (el n)) "input"), (String.eqb_sym (tag (el n)) "textarea"),
    (String.eqb_sym (tag (el n)) "select"), (String.eqb_sym (tag (el n)) "details").
  rewrite !orb_assoc. reflexivity.
Qed.

Lemma focusables_in_below m d u :
  In u (Modal.focusables_of m d) -> exists q, In q (below m d) /\ uid (snd q) = u.
Proof.
  unfold Modal.focusables_of. intros H. apply filter_In in H as [H _].
  now apply (el_query_all_below m Modal.focusable_selector).
Qed.

Lemma last_of_in (l : list nat) x : Modal.last_of l = Some x -> In x l.
Proof. unfold Modal.last_of. apply nth_error_In. Qed.

(** ** Opening, then closing *)

Lemma filter_none {A} (f : A -> bool) (l : list A) :
  (forall a, In a l -> f a = false) -> filter f l = [].
Proof.
  induction l as [|a r IHr]; simpl; intros H; [reflexivity|].
  rewrite (H a (or_introl eq_refl)). apply IHr. intros b Hb. apply H. now right.
Qed.

Lemma filter_keep {A} (f : A -> bool) (l : list A) :
  (forall a, In a l -> f a = true) -> filter f l = l.
Proof.
  induction l as [|a r IHr]; simpl; intros H; [reflexivity|].
  rewrite (H a (or_introl eq_refl)). f_equal. apply IHr. intros b Hb. apply H. now right.
Qed.

End SessionFacts.

(* ================================================================== *)
(** * Modal.astro: what the code does on five pages *)
(* ================================================================== *)

Module ModalRuns.
Import Dom Page Api Shape Samples.

(** C1.  Dialogs as [Modal.astro] renders them, opened by a click on
    their trigger: the dialog is open and the focus is on its title.
    In the first the content is a [details] element, which the script
    takes for the first focusable descendant and which cannot take the
    focus: with the focus on the last one, the close button, a Tab
    keydown is cancelled and the focus stays on the close button.  In
    the second the content is a form that starts with a hidden input:
    Tab on the close button does the same, and Shift+Tab on the text
    input, the first element of the dialog the Tab key reaches, is not
    cancelled and moves nothing.  In the third the content starts with
    a link: Tab on the close button is cancelled and the focus moves to
    the link, Shift+Tab on the link moves it to the close button. *)
Theorem C1_tab_with_first_match_unfocusable :
  let clicked (loaded : page) := snd (Events.dispatch (Events.click 2) loaded) in
  let press (at_ : nat) (shift : bool) (loaded : page) :=
    snd (Events.dispatch (Events.keydown (Some at_) "Tab" shift)
           (snd (focus at_ (clicked loaded)))) in
  attr_of 3 "open" (dom (clicked details_loaded)) = Some EmptyString
  /\ active (dom (clicked details_loaded)) = Some 6
  /\ Modal.focusables_of 3 (dom (clicked details_loaded)) = [7; 10]
  /\ option_map tag (elem_of 7 (dom details_loaded)) = Some "details"
  /\ can_focus 7 (dom (clicked details_loaded)) = false
  /\ active (dom (snd (focus 10 (clicked details_loaded)))) = Some 10
  /\ defaultPrevented (events (press 10 false details_loaded)) = true
  /\ active (dom (press 10 false details_loaded)) = Some 10
  /\ active (dom (clicked form_loaded)) = Some 6
  /\ Modal.focusables_of 3 (dom (clicked form_loaded)) = [7; 8; 10]
  /\ can_focus 7 (dom (clicked form_loaded)) = false
  /\ defaultPrevented (events (press 10 false form_loaded)) = true
  /\ active (dom (press 10 false form_loaded)) = Some 10
  /\ active (dom (snd (focus 8 (clicked form_loaded)))) = Some 8
  /\ defaultPrevented (events (press 8 true form_loaded)) = false
  /\ active (dom (press 8 true form_loaded)) = Some 8
  /\ active (dom (clicked modal_loaded)) = Some 6
  /\ Modal.focusables_of 3 (dom (clicked modal_loaded)) = [7; 10]
  /\ defaultPrevented (events (press 10 false modal_loaded)) = true
  /\ active (dom (press 10 false modal_loaded)) = Some 7
  /\ defaultPrevented (events (press 7 true modal_loaded)) = true
  /\ active (dom (press 7 true modal_loaded)) = Some 10.
Proof. vm_compute. repeat split. Qed.

(** C2.  One dialog and its trigger, the script loaded, nothing
    focused.  A click on the trigger opens the dialog; while it is
    shown the trigger is inert.  A click on the close button then
    closes the dialog and removes the listeners of the session, and the
    focus is not on the trigger: [focus()] was called on it while it
    was inert.  When the trigger has the focus at the click that opens
    the dialog, the focus is back on it after the close.  After a view
    swap to a page with the same dialog and the signal, the script's
    list still holds the dialog of the page it was loaded on: a click
    on the new trigger opens the new dialog, a click on its close
    button removes the listeners of the session and leaves the dialog
    open, blocking the document, the focus in it. *)
Theorem C2_close_misses_trigger_and_swapped_dialog :
  let clicked := snd (Events.dispatch (Events.click 2) modal_loaded) in
  let dismissed := snd (Events.dispatch (Events.click 10) clicked) in
  let clicked_with_focus :=
    snd (Events.dispatch (Events.click 2) (snd (focus 2 modal_loaded))) in
  let dismissed_with_focus := snd (Events.dispatch (Events.click 10) clicked_with_focus) in
  let swapped :=
    snd (Events.dispatch Events.after_swap
           (Events.view_swap next_modal_view modal_loaded)) in
  let clicked' := snd (Events.dispatch (Events.click 102) swapped) in
  let dismissed' := snd (Events.dispatch (Events.click 110) clicked') in
  trigger_of 3 (dom modal_loaded) = Some 2
  /\ active (dom modal_loaded) = None
  /\ attr_of 3 "open" (dom clicked) = Some EmptyString
  /\ blocking (dom clicked) = Some 3
  /\ can_focus 2 (dom clicked) = false
  /\ attr_of 3 "open" (dom dismissed) = None
  /\ listeners (events dismissed) = listeners (events modal_loaded)
  /\ uncaught (env dismissed) = []
  /\ active (dom dismissed) <> Some 2
  /\ can_focus 2 (dom dismissed) = true
  /\ active (dom clicked_with_focus) = Some 6
  /\ active (dom dismissed_with_focus) = Some 2
  /\ modals (vars swapped) = [3]
  /\ doc_query_all [Just [Class "modal"]] (dom swapped) = [103]
  /\ trigger_of 103 (dom swapped) = Some 102
  /\ close_button_of 103 (dom swapped) = Some 110
  /\ attr_of 103 "open" (dom clicked') = Some EmptyString
  /\ List.length (listeners (events clicked')) = 4 + List.length (listeners (events swapped))
  /\ attr_of 103 "open" (dom dismissed') = Some EmptyString
  /\ blocking (dom dismissed') = Some 103
  /\ active (dom dismissed') = Some 106
  /\ listeners (events dismissed') = listeners (events swapped)
  /\ uncaught (env dismissed') = [].
Proof. vm_compute. repeat split; discriminate. Qed.

(** C10.  Two dialogs, each with its trigger, the script loaded,
    nothing focused.  With the first dialog opened from its trigger,
    [closeModal] closes it and the focus ends on the trigger of the
    second, the last dialog.  With the last dialog opened from its
    trigger, [closeModal] closes it and the focus is not on any
    trigger: both calls of [focus()] come while the last dialog is
    still shown and the triggers are inert. *)
Theorem C10_focus_after_close_depends_on_open_dialog :
  let clicked_first := snd (Events.dispatch (Events.click 2) two_modals_loaded) in
  let clicked_last := snd (Events.dispatch (Events.click 12) two_modals_loaded) in
  let finished_first := snd (Modal.closeModal clicked_first) in
  let finished_last := snd (Modal.closeModal clicked_last) in
  modals (vars two_modals_loaded) = [3; 13]
  /\ triggers_of [3; 13] (dom two_modals_loaded) = [2; 12]
  /\ active (dom two_modals_loaded) = None
  /\ attr_of 3 "open" (dom clicked_first) = Some EmptyString
  /\ attr_of 13 "open" (dom clicked_first) = None
  /\ fst (Modal.closeModal clicked_first) = Ok tt
  /\ attr_of 3 "open" (dom finished_first) = None
  /\ active (dom finished_first) = Some 12
  /\ attr_of 3 "open" (dom clicked_last) = None
  /\ attr_of 13 "open" (dom clicked_last) = Some EmptyString
  /\ can_focus 2 (dom clicked_last) = false
  /\ can_focus 12 (dom clicked_last) = false
  /\ fst (Modal.closeModal clicked_last) = Ok tt
  /\ attr_of 13 "open" (dom finished_last) = None
  /\ active (dom finished_last) <> Some 12
  /\ active (dom finished_last) <> Some 2
  /\ can_focus 12 (dom finished_last) = true.
Proof. vm_compute. repeat split; discriminate. Qed.

End ModalRuns.

(* ================================================================== *)
(** * Trees whose elements have distinct identities *)
(* ================================================================== *)

Module TreeFacts.
Import Dom Page Api Shape DomFacts KidsFacts ElemFacts QueryFacts.

Lemma distinct_NoDup (l : list nat) : distinct l = true -> NoDup l.
Proof.
  induction l as [|x r IHr]; simpl; intros H; [constructor|].
  apply andb_prop in H as [Hx Hr]. constructor; [|now apply IHr].
  intros Hin. apply negb_true_iff in Hx.
  assert (E : existsb (Nat.eqb x) r = true).
  { apply existsb_exists. exists x. split; [exact Hin | apply Nat.eqb_refl]. }
  congruence.
Qed.

Lemma wf_NoDup d : wf_dom d = true -> NoDup (all_uids d).
Proof. unfold wf_dom. intros H. apply andb_prop in H as [H _]. now apply distinct_NoDup. Qed.

Lemma NoDup_app_l {A} (l1 l2 : list A) : NoDup (l1 ++ l2) -> NoDup l1.
Proof.
  induction l1 as [|a r IHr]; simpl; intros H; [constructor|].
  inversion H as [|? ? Ha Hr]; subst. constructor; [|now apply IHr].
  intros Hin. apply Ha. apply in_or_app. now left.
Qed.

Lemma NoDup_app_r {A} (l1 l2 : list A) : NoDup (l1 ++ l2) -> NoDup l2.
Proof.
  induction l1 as [|a r IHr]; simpl; intros H; [exact H|].
  inversion H as [|? ? Ha Hr]; subst. now apply IHr.
Qed.

Lemma NoDup_app_disjoint {A} (l1 l2 : list A) x :
  NoDup (l1 ++ l2) -> In x l1 -> In x l2 -> False.
Proof.
  induction l1 as [|a r IHr]; simpl; intros H H1 H2; [contradiction|].
  inversion H as [|? ? Ha Hr]; subst. destruct H1 as [->|H1].
  - apply Ha. apply in_or_app. now right.
  - now apply IHr.
Qed.

Lemma self_in_uids t : In (uid t) (uids t).
Proof. destruct t. simpl. now left. Qed.

Lemma uids_cons u e ks : uids (Node u e ks) = u :: flat_map uids ks.
Proof. unfold uids. simpl. f_equal. apply uids_flat. Qed.

Lemma uids_kids x : uids x = uid x :: flat_map uids (kids x).
Proof. destruct x. apply uids_cons. Qed.

(** A node of a tree with distinct identities has distinct identities. *)
Lemma NoDup_inner (t : node) : forall x,
  In x (preorder t) -> NoDup (uids t) -> NoDup (uids x).
Proof.
  induction t as [u e ks IH] using node_induction. intros x Hx Hnd.
  simpl in Hx. destruct Hx as [<-|Hx]; [exact Hnd|].
  rewrite uids_cons in Hnd. inversion Hnd as [|? ? _ Hks]; subst. clear Hnd.
  induction ks as [|k r IHr]; simpl in *; [contradiction|].
  inversion IH as [|? ? Hk Hr]; subst.
  apply in_app_or in Hx as [Hx|Hx].
  - apply (Hk x Hx). now apply NoDup_app_l in Hks.
  - apply IHr; [exact Hr | exact Hx | now apply NoDup_app_r in Hks].
Qed.

Lemma NoDup_inner_forest (l : list node) x :
  In x (flat_map preorder l) -> NoDup (flat_map uids l) -> NoDup (uids x).
Proof.
  induction l as [|t r IHr]; simpl; intros Hx Hnd; [contradiction|].
  apply in_app_or in Hx as [Hx|Hx].
  - apply (NoDup_inner t x Hx). now apply NoDup_app_l in Hnd.
  - apply IHr; [exact Hx | now apply NoDup_app_r in Hnd].
Qed.

(** With distinct identities, looking an identity up finds the node. *)
Lemma find_the_node (l : list node) x :
  NoDup (map uid l) -> In x l -> find (has_uid (uid x)) l = Some x.
Proof.
  induction l as [|a r IHr]; simpl; intros Hnd Hx; [contradiction|].
  inversion Hnd as [|? ? Ha Hr]; subst.
  unfold has_uid at 1. destruct (Nat.eqb_spec (uid a) (uid x)) as [E|E].
  - destruct Hx as [->|Hx]; [reflexivity|].
    exfalso. apply Ha. rewrite E. now apply in_map.
  - destruct Hx as [->|Hx]; [congruence|]. now apply IHr.
Qed.

Lemma node_of_the_node d x :
  NoDup (all_uids d) -> In x (flat_map preorder (forest d)) -> node_of (uid x) d = Some x.
Proof.
  intros Hnd Hx. unfold node_of. apply find_the_node; [|exact Hx].
  unfold all_uids in Hnd. now rewrite uids_flat.
Qed.

Lemma under_absent u (t : node) : ~ In u (uids t) -> under u t = [].
Proof.
  induction t as [w e ks IH] using node_induction. intros Hu.
  rewrite uids_cons in Hu. simpl.
  destruct (Nat.eqb_spec w u) as [E|E]; [exfalso; apply Hu; now left|].
  assert (Hks : ~ In u (flat_map uids ks)) by (intros H; apply Hu; now right).
  clear Hu. induction ks as [|k r IHr]; simpl; [reflexivity|].
  inversion IH as [|? ? Hk Hr]; subst.
  rewrite Hk, IHr; try assumption; [reflexivity| |];
    intros H; apply Hks; simpl; apply in_or_app; tauto.
Qed.

Lemma under_absent_forest u (l : list node) :
  ~ In u (flat_map uids l) -> flat_map (under u) l = [].
Proof.
  induction l as [|t r IHr]; simpl; intros Hu; [reflexivity|].
  rewrite under_absent, IHr; [reflexivity| |];
    intros H; apply Hu; apply in_or_app; tauto.
Qed.

Lemma find_in_uids v (l : list node) x :
  find (has_uid v) l = Some x -> In v (map uid l).
Proof.
  intros H. apply find_some in H as [Hin E]. apply Nat.eqb_eq in E. subst v.
  now apply in_map.
Qed.

(** With distinct identities, what lies inside the element [u] is what
    lies under the one node found for [u]. *)
Lemma under_found_forest u (l : list node) x :
  (forall t, In t l -> NoDup (uids t) ->
     forall y, find (has_uid u) (preorder t) = Some y ->
               under u t = flat_map uids (kids y)) ->
  NoDup (flat_map uids l) ->
  find (has_uid u) (flat_map preorder l) = Some x ->
  flat_map (under u) l = flat_map uids (kids x).
Proof.
  induction l as [|t r IHr]; simpl; intros IH Hnd Hx; [discriminate|].
  rewrite find_app in Hx.
  destruct (find (has_uid u) (preorder t)) as [y|] eqn:E.
  - injection Hx as ->.
    rewrite (IH t (or_introl eq_refl) (NoDup_app_l _ _ Hnd) x E).
    rewrite under_absent_forest; [apply app_nil_r|].
    intros Hin. apply (NoDup_app_disjoint _ _ u Hnd); [|exact Hin].
    apply (find_in_uids u _ x E).
  - rewrite under_absent.
    + apply IHr; [|now apply NoDup_app_r in Hnd | exact Hx].
      intros t' Ht'. apply IH. now right.
    + intros Hin. unfold uids in Hin.
      destruct (find_some_uids _ _ Hin) as [n Hn]. congruence.
Qed.

Lemma under_found u (t : node) : NoDup (uids t) ->
  forall y, find (has_uid u) (preorder t) = Some y -> under u t = flat_map uids (kids y).
Proof.
  induction t as [w e ks IH] using node_induction. intros Hnd y Hy.
  simpl in Hy. unfold has_uid at 1 in Hy. simpl in Hy. simpl under.
  destruct (Nat.eqb_spec w u) as [E|E].
  - injection Hy as <-. reflexivity.
  - rewrite uids_cons in Hnd. inversion Hnd as [|? ? _ Hks]; subst.
    apply under_found_forest; [|exact Hks | exact Hy].
    intros t Ht. rewrite Forall_forall in IH. now apply IH.
Qed.

Lemma inside_found u d x :
  NoDup (all_uids d) -> node_of u d = Some x -> inside u d = flat_map uids (kids x).
Proof.
  intros Hnd Hx. unfold inside. apply under_found_forest; [|exact Hnd | exact Hx].
  intros t _. apply under_found.
Qed.

Lemma inside_absent u d : node_of u d = None -> inside u d = [].
Proof.
  intros H. unfold inside. apply under_absent_forest. intros Hin.
  unfold node_of in H. rewrite <- uids_flat in Hin.
  destruct (find_some_uids _ _ Hin) as [n Hn]. congruence.
Qed.

End TreeFacts.

(* ================================================================== *)
(** * Accordion.astro: opening one item leaves the others *)
(* ================================================================== *)

Module AccordionFacts.
Import Dom Page Api Shape DomFacts KidsFacts ElemFacts QueryFacts TreeFacts.
Import DarkModeFacts.

(** ** Queries read off the node of the item *)

Lemma below_nodes v d : map snd (below v d) = desc v d.
Proof.
  unfold below, desc. rewrite <- locate_node.
  destruct (locate v d) as [[anc n]|]; simpl; [|reflexivity].
  rewrite map_flat_map. apply flat_map_ext. intros k. apply walk_snd.
Qed.

Lemma below_uids v d : map (fun q => uid (snd q)) (below v d) = map uid (desc v d).
Proof. now rewrite <- below_nodes, map_map. Qed.

Lemma first_uid_hd (l : list (list node * node)) :
  first_uid l = hd_error (map (fun q => uid (snd q)) l).
Proof. now destruct l. Qed.

Lemma filter_map_snd (g : node -> bool) (l : list (list node * node)) :
  map snd (filter (fun q => g (snd q)) l) = filter g (map snd l).
Proof.
  induction l as [|q r IHr]; simpl; [reflexivity|].
  destruct (g (snd q)); simpl; now rewrite IHr.
Qed.

(** A class selector looks at the node alone. *)
Lemma el_query_class v c d :
  el_query v [Just [Class c]] d
  = hd_error (map uid (filter (fun n => has_class c (el n)) (desc v d))).
Proof.
  unfold el_query. rewrite first_uid_hd, <- below_nodes.
  rewrite <- filter_map_snd, map_map. f_equal. f_equal.
  apply filter_ext. intros [anc n]. unfold matches. simpl.
  now rewrite andb_true_r, orb_false_r.
Qed.

Lemma subtree_uids_node v d x :
  node_of v d = Some x -> subtree_uids v d = uids x.
Proof.
  intros H. unfold subtree_uids. rewrite below_uids. unfold desc. rewrite H.
  rewrite uids_kids, uids_flat. f_equal. symmetry. exact (node_of_uid _ _ _ H).
Qed.

(** ** Replacing children somewhere else *)

Lemma replace_absent u new (t : node) : ~ In u (uids t) -> replace_kids u new t = t.
Proof.
  induction t as [w e ks IH] using node_induction. intros Hu.
  rewrite uids_cons in Hu. simpl.
  destruct (Nat.eqb_spec w u) as [E|E]; [exfalso; apply Hu; now left|].
  f_equal. assert (Hks : ~ In u (flat_map uids ks)) by (intros H; apply Hu; now right).
  clear Hu. induction ks as [|k r IHr]; simpl; [reflexivity|].
  inversion IH as [|? ? Hk Hr]; subst.
  rewrite Hk, IHr; try assumption; [reflexivity| |];
    intros H; apply Hks; simpl; apply in_or_app; tauto.
Qed.

Lemma find_node_replace u new v (t : node) :
  (forall x, find (has_uid v) (preorder t) = Some x -> ~ In u (uids x)) ->
  ~ In v (under u t) ->
  ~ In v (flat_map uids new) ->
  find (has_uid v) (preorder (replace_kids u new t)) = find (has_uid v) (preorder t).
Proof.
  induction t as [w e ks IH] using node_induction. intros Hx Hun Hnew.
  simpl replace_kids. simpl under in Hun.
  destruct (Nat.eqb_spec w u) as [Ewu|Ewu].
  - subst w. simpl. unfold has_uid at 1 3. simpl.
    destruct (Nat.eqb_spec u v) as [E|E].
    + exfalso. subst v. apply (Hx (Node u e ks)).
      * simpl. unfold has_uid at 1. simpl. now rewrite Nat.eqb_refl.
      * rewrite uids_cons. now left.
    + rewrite !find_none_uids; [reflexivity| |]; now rewrite uids_flat.
  - simpl. unfold has_uid at 1 3. simpl.
    destruct (Nat.eqb_spec w v) as [E|E].
    + f_equal. f_equal. subst w.
      assert (Hu : ~ In u (uids (Node v e ks))).
      { apply Hx. simpl. unfold has_uid at 1. simpl. now rewrite Nat.eqb_refl. }
      pose proof (replace_absent u new (Node v e ks) Hu) as R. simpl in R.
      apply Nat.eqb_neq in Ewu. rewrite Ewu in R. now injection R.
    + assert (Hx' : forall x, find (has_uid v) (flat_map preorder ks) = Some x ->
                              ~ In u (uids x)).
      { intros x Hf. apply Hx. simpl. unfold has_uid at 1. simpl.
        apply Nat.eqb_neq in E. now rewrite E. }
      clear Hx. induction ks as [|k r IHr]; simpl; [reflexivity|].
      inversion IH as [|? ? Hk Hr]; subst.
      simpl in Hun, Hx'. rewrite !find_app. rewrite find_app in Hx'.
      rewrite Hk.
      * destruct (find (has_uid v) (preorder k)) eqn:F; [reflexivity|].
        apply IHr; [exact Hr | | exact Hx'].
        intros H. apply Hun. apply in_or_app. now right.
      * intros x Hf. apply Hx'. now rewrite Hf.
      * intros H. apply Hun. apply in_or_app. now left.
      * exact Hnew.
Qed.

Lemma find_node_replace_forest u new v (l : list node) :
  (forall x, find (has_uid v) (flat_map preorder l) = Some x -> ~ In u (uids x)) ->
  ~ In v (flat_map (under u) l) ->
  ~ In v (flat_map uids new) ->
  find (has_uid v) (flat_map preorder (map (replace_kids u new) l))
  = find (has_uid v) (flat_map preorder l).
Proof.
  induction l as [|t r IHr]; simpl; intros Hx Hun Hnew; [reflexivity|].
  rewrite !find_app. rewrite find_app in Hx.
  rewrite find_node_replace.
  - destruct (find (has_uid v) (preorder t)) eqn:F; [reflexivity|].
    apply IHr; [exact Hx | | exact Hnew].
    intros H. apply Hun. apply in_or_app. now right.
  - intros x Hf. apply Hx. now rewrite Hf.
  - intros H. apply Hun. apply in_or_app. now left.
  - exact Hnew.
Qed.

Lemma node_of_set_kids u new k v d :
  (forall x, node_of v d = Some x -> ~ In u (uids x)) ->
  ~ In v (inside u d) ->
  ~ In v (flat_map uids new) ->
  node_of v (set_kids u new k d) = node_of v d.
Proof.
  intros Hx Hun Hnew. unfold node_of.
  exact (find_node_replace_forest u new v (forest d) Hx Hun Hnew).
Qed.

Lemma preorder_sub (t : node) : forall x y,
  In x (preorder t) -> In y (preorder x) -> In y (preorder t).
Proof.
  induction t as [w e ks IH] using node_induction. intros x y Hx Hy.
  simpl in Hx. destruct Hx as [<-|Hx]; [exact Hy|].
  simpl. right. apply in_flat_map in Hx as [k [Hk Hx]].
  apply in_flat_map. exists k. split; [exact Hk|].
  rewrite Forall_forall in IH. exact (IH k Hk x y Hx Hy).
Qed.

Lemma preorder_sub_forest (l : list node) x y :
  In x (flat_map preorder l) -> In y (preorder x) -> In y (flat_map preorder l).
Proof.
  intros Hx Hy. apply in_flat_map in Hx as [t [Ht Hx]].
  apply in_flat_map. exists t. split; [exact Ht|]. exact (preorder_sub t x y Hx Hy).
Qed.

Lemma node_of_in d v x : node_of v d = Some x -> In x (flat_map preorder (forest d)).
Proof. unfold node_of. intros H. now apply find_some in H. Qed.

(** ** The frame *)

Lemma disjoint_spec a b x : disjoint a b = true -> In x a -> In x b -> False.
Proof.
  unfold disjoint. intros H Ha Hb. rewrite forallb_forall in H.
  specialize (H x Ha). apply negb_true_iff in H.
  assert (E : existsb (Nat.eqb x) b = true).
  { apply existsb_exists. exists x. split; [exact Hb | apply Nat.eqb_refl]. }
  congruence.
Qed.

Lemma subtree_uids_update u f v d :
  subtree_uids v (update_elem u f d) = subtree_uids v d.
Proof. unfold subtree_uids. now rewrite below_uids_update_elem. Qed.

Lemma query_in_subtree v sel d x : el_query v sel d = Some x -> In x (subtree_uids v d).
Proof.
  intros H. right. apply el_query_below in H as [q [Hq <-]].
  apply in_map_iff. now exists q.
Qed.

Lemma elem_of_update_other u f v d :
  v <> u -> elem_of v (update_elem u f d) = elem_of v d.
Proof.
  intros H. rewrite elem_of_update_elem. destruct (elem_of v d); simpl; [|reflexivity].
  now rewrite at_uid_other.
Qed.

Lemma subtree_in_all v d x : In v (all_uids d) -> In x (subtree_uids v d) -> In x (all_uids d).
Proof.
  intros Hv [<-|Hx]; [exact Hv|].
  apply in_map_iff in Hx as [q [<- Hq]]. apply below_in_everything in Hq.
  rewrite <- everything_uids. apply in_map_iff. now exists q.
Qed.

Section Frame.
Variables (n m : nat).

(** A write to the data of an element outside the item [m]. *)
Lemma state_update_elem d u f :
  ~ In u (subtree_uids m d) ->
  inert Accordion.header_sel f ->
  inert Accordion.panel_sel f ->
  item_state m (update_elem u f d) = item_state m d.
Proof.
  intros Hu Hh Hp. unfold item_state.
  assert (Hm : m <> u) by (intros ->; apply Hu; now left).
  unfold class_on. rewrite (elem_of_update_other u f m d Hm).
  rewrite (el_query_inert _ u f Hh), (el_query_inert _ u f Hp).
  f_equal; [f_equal|].
  - destruct (el_query m Accordion.header_sel d) as [h|] eqn:E; [|reflexivity].
    simpl. f_equal. unfold attr_of. rewrite elem_of_update_other; [reflexivity|].
    intros ->. apply Hu. exact (query_in_subtree m _ d _ E).
  - destruct (el_query m Accordion.panel_sel d) as [h|] eqn:E; [|reflexivity].
    simpl. f_equal. unfold height_of. rewrite elem_of_update_other; [reflexivity|].
    intros ->. apply Hu. exact (query_in_subtree m _ d _ E).
Qed.

(** What lies inside an element of the item [n] lies inside [n]. *)
Lemma inside_in_subtree d u v :
  NoDup (all_uids d) ->
  In u (subtree_uids n d) ->
  In v (inside u d) ->
  In v (map uid (desc n d)).
Proof.
  intros Hnd Hu Hv.
  destruct (node_of u d) as [x|] eqn:Ex;
    [|rewrite (inside_absent u d Ex) in Hv; contradiction].
  rewrite (inside_found u d x Hnd Ex) in Hv.
  destruct Hu as [<-|Hu].
  - unfold desc. rewrite Ex. now rewrite uids_flat.
  - rewrite below_uids in Hu. unfold desc in *.
    destruct (node_of n d) as [xn|] eqn:En; [|contradiction].
    apply in_map_iff in Hu as [y [Ey Hy]].
    assert (Hyf : In y (flat_map preorder (forest d))).
    { apply (preorder_sub_forest _ xn y (node_of_in d n xn En)).
      destruct xn. simpl. now right. }
    pose proof (node_of_the_node d y Hnd Hyf) as Ny. rewrite Ey, Ex in Ny.
    injection Ny as ->.
    rewrite <- uids_flat in Hv. apply in_map_iff in Hv as [z [Ez Hz]].
    apply in_map_iff. exists z. split; [exact Ez|].
    apply (preorder_sub_forest _ y z Hy). destruct y. simpl. now right.
Qed.

(** An element is not inside itself. *)
Lemma self_not_inside d :
  NoDup (all_uids d) -> ~ In n (map uid (desc n d)).
Proof.
  intros Hnd. unfold desc. destruct (node_of n d) as [x|] eqn:En; [|intros []].
  pose proof (NoDup_inner_forest _ x (node_of_in d n x En) Hnd) as Hx.
  rewrite uids_kids, (node_of_uid _ _ _ En) in Hx.
  inversion Hx as [|? ? Hnot _]; subst. now rewrite uids_flat.
Qed.

(** New children for an element of the item [n]. *)
Lemma state_set_kids d u new k :
  wf_dom d = true ->
  In m (all_uids d) ->
  In u (subtree_uids n d) ->
  disjoint (subtree_uids n d) (subtree_uids m d) = true ->
  (forall x, In x (flat_map uids new) -> next_uid d <= x) ->
  item_state m (set_kids u new k d) = item_state m d.
Proof.
  intros Hwf Hm Hu Hdis Hnew.
  pose proof (wf_NoDup d Hwf) as Hnd.
  assert (Keep : forall v, In v (subtree_uids m d) ->
            ~ In v (inside u d) /\ ~ In v (flat_map uids new)).
  { intros v Hv. split.
    - intros Hin. apply (disjoint_spec _ _ v Hdis); [|exact Hv].
      right. rewrite below_uids. now apply (inside_in_subtree d u v).
    - intros Hin. apply Hnew in Hin.
      pose proof (wf_fresh d v Hwf (subtree_in_all m d v Hm Hv)). lia. }
  assert (El : forall v, In v (subtree_uids m d) ->
            elem_of v (set_kids u new k d) = elem_of v d).
  { intros v Hv. apply elem_of_set_kids. right. now apply Keep. }
  assert (Nm : node_of m (set_kids u new k d) = node_of m d).
  { destruct (Keep m (or_introl eq_refl)) as [K1 K2].
    apply node_of_set_kids; [|exact K1 | exact K2].
    intros x Ex Hin. rewrite <- (subtree_uids_node m d x Ex) in Hin.
    exact (disjoint_spec _ _ u Hdis Hu Hin). }
  assert (Q : forall c, el_query m [Just [Class c]] (set_kids u new k d)
                        = el_query m [Just [Class c]] d).
  { intros c. rewrite !el_query_class. unfold desc. now rewrite Nm. }
  unfold item_state, Accordion.header_sel, Accordion.panel_sel.
  rewrite !Q. unfold class_on. rewrite (El m (or_introl eq_refl)).
  f_equal; [f_equal|].
  - destruct (el_query m [Just [Class "accordion__header"]] d) as [h|] eqn:E;
      [|reflexivity].
    simpl. f_equal. unfold attr_of. rewrite El; [reflexivity|].
    exact (query_in_subtree m _ d _ E).
  - destruct (el_query m [Just [Class "accordion__panel"]] d) as [h|] eqn:E;
      [|reflexivity].
    simpl. f_equal. unfold height_of. rewrite El; [reflexivity|].
    exact (query_in_subtree m _ d _ E).
Qed.
End Frame.

Lemma inert_set_height sel h : inert sel (set_height h).
Proof. intros s _ e. now destruct s. Qed.

Lemma inert_set_attr_class c a v : inert [Just [Class c]] (set_attr a v).
Proof. intros s [<-|[]] e. reflexivity. Qed.

Lemma inert_add_class c c' : c <> c' -> inert [Just [Class c]] (add_class c').
Proof. intros H s [<-|[]] e. simpl. now apply has_class_add_other. Qed.

Lemma wf_update_elem u f d : wf_dom (update_elem u f d) = wf_dom d.
Proof. unfold wf_dom. now rewrite all_uids_update_elem. Qed.

Lemma minus_icon_fresh u x : In x (flat_map uids (Accordion.minus_icon u)) -> u <= x.
Proof. simpl. intros [H|[H|[]]]; lia. Qed.

Lemma class_after_open (n hd : nat) (h : string) (pn : nat) (d : dom_state) :
  In n (all_uids d) ->
  class_on n "is-active"
    (update_elem hd (set_attr "aria-expanded" "true")
       (update_elem n (add_class "is-active")
          (update_elem pn (set_height h) d))) = true.
Proof.
  intros Hn. destruct (elem_of_in_all n d Hn) as [e He].
  unfold class_on. rewrite !elem_of_update_elem, He. simpl.
  rewrite at_uid_same. rewrite class_after_attr.
  apply has_class_add_same.
Qed.

(** A number followed by "px" is kept as written. *)
Lemma css_length_px h : css_length (h ++ "px") = (h ++ "px")%string.
Proof.
  unfold css_length. destruct h as [|c r]; [reflexivity|].
  simpl. destruct (Ascii.eqb c "0"); [|reflexivity].
  now destruct r.
Qed.

(** [openAccordionItem], write by write. *)
Lemma openAccordionItem_run (p : page) (n : nat) :
  exists hs : string,
    Accordion.openAccordionItem n p
    = match el_query n Accordion.panel_sel (dom p) with
      | None => (Throw TypeError, p)
      | Some pn =>
          let d2 := update_elem n (add_class "is-active")
                      (update_elem pn (set_height (hs ++ "px")) (dom p)) in
          match el_query n Accordion.header_sel (dom p) with
          | None => (Throw TypeError, mkPage d2 (events p) (env p) (vars p))
          | Some hd =>
              let d3 := update_elem hd (set_attr "aria-expanded" "true") d2 in
              match el_query n Accordion.indicator_sel (dom p) with
              | None => (Throw TypeError, mkPage d3 (events p) (env p) (vars p))
              | Some i =>
                  (Ok tt,
                   mkPage (set_kids i (Accordion.minus_icon (next_uid d3)) 2 d3)
                          (events p) (env p) (vars p))
              end
          end
      end.
Proof.
  exists (match el_query n Accordion.inner_sel (dom p) with
          | Some i => match elem_of i (dom p) with
                      | Some e => layout_height e
                      | None => "0"
                      end
          | None => "0"
          end).
  unfold Accordion.openAccordionItem, Accordion.getPanelHeight, querySelector_in,
    set_style_height, classList_add, setAttribute, set_innerHTML, rect_height.
  unfold deref, bind, ret, gets, update, throw, with_dom.
  cbn [dom events env vars fst snd].
  destruct (el_query n Accordion.panel_sel (dom p)) as [pn|];
    cbn [dom events env vars fst snd]; [|destruct p; reflexivity].
  destruct (el_query n Accordion.inner_sel (dom p)) as [inner|];
    cbn [dom events env vars fst snd];
    (destruct (el_query n Accordion.header_sel (dom p)) as [hd|];
     cbn [dom events env vars fst snd];
     [|rewrite css_length_px; reflexivity]);
    (destruct (el_query n Accordion.indicator_sel (dom p)) as [i|];
     cbn [dom events env vars fst snd]; rewrite css_length_px; reflexivity).
Qed.

(** C7.  Two accordion items of the document that share no element:
    [openAccordionItem] on the one leaves the other as it was, in its
    [is-active] class, in the [aria-expanded] of its header and in the
    height set on its panel, whether the call returns or throws; and
    when it returns, the opened item is marked active, next to the
    other one if that was open already. *)
Theorem C7_open_leaves_other_items (p : page) (n m : nat) :
  wf_dom (dom p) = true ->
  In n (doc_query_all Accordion.item_sel (dom p)) ->
  In m (doc_query_all Accordion.item_sel (dom p)) ->
  n <> m ->
  disjoint (subtree_uids n (dom p)) (subtree_uids m (dom p)) = true ->
  let p' := snd (Accordion.openAccordionItem n p) in
  item_state m (dom p') = item_state m (dom p)
  /\ (fst (Accordion.openAccordionItem n p) = Ok tt ->
      class_on n "is-active" (dom p') = true).
Proof.
  intros Hwf Hn Hm Hne Hdis p'.
  set (d := dom p) in *.
  pose proof (doc_in_all _ _ (doc_query_all_in _ _ _ Hn)) as Hnall.
  pose proof (doc_in_all _ _ (doc_query_all_in _ _ _ Hm)) as Hmall.
  assert (Out : forall u, In u (subtree_uids n d) -> ~ In u (subtree_uids m d)).
  { intros u Hu Hu'. exact (disjoint_spec _ _ u Hdis Hu Hu'). }
  subst p'. destruct (openAccordionItem_run p n) as [hs R]. rewrite R. clear R.
  fold d.
  destruct (el_query n Accordion.panel_sel d) as [pn|] eqn:Ep;
    cbn [dom fst snd]; [|split; [reflexivity | discriminate]].
  set (d1 := update_elem pn (set_height (hs ++ "px")) d).
  set (d2 := update_elem n (add_class "is-active") d1).
  assert (S1 : item_state m d1 = item_state m d).
  { apply state_update_elem; [|apply inert_set_height|apply inert_set_height].
    apply Out. exact (query_in_subtree n _ d _ Ep). }
  assert (S2 : item_state m d2 = item_state m d).
  { rewrite <- S1. apply state_update_elem.
    - unfold d1. rewrite subtree_uids_update. apply Out. now left.
    - apply inert_add_class. discriminate.
    - apply inert_add_class. discriminate. }
  destruct (el_query n Accordion.header_sel d) as [hd|] eqn:Eh;
    cbn [dom fst snd]; [|split; [exact S2 | discriminate]].
  set (d3 := update_elem hd (set_attr "aria-expanded" "true") d2).
  assert (S3 : item_state m d3 = item_state m d).
  { rewrite <- S2. apply state_update_elem.
    - unfold d2, d1. rewrite !subtree_uids_update. apply Out.
      exact (query_in_subtree n _ d _ Eh).
    - apply inert_set_attr_class.
    - apply inert_set_attr_class. }
  destruct (el_query n Accordion.indicator_sel d) as [i|] eqn:Ei;
    cbn [dom fst snd]; [|split; [exact S3 | discriminate]].
  assert (Hwf3 : wf_dom d3 = true).
  { unfold d3, d2, d1. now rewrite !wf_update_elem. }
  assert (U3 : forall v, subtree_uids v d3 = subtree_uids v d).
  { intros v. unfold d3, d2, d1. now rewrite !subtree_uids_update. }
  assert (A3 : all_uids d3 = all_uids d).
  { unfold d3, d2, d1. now rewrite !all_uids_update_elem. }
  assert (Hi3 : In i (subtree_uids n d3)).
  { rewrite U3. exact (query_in_subtree n _ d _ Ei). }
  split.
  - rewrite <- S3. apply (state_set_kids n m d3); try assumption.
    + now rewrite A3.
    + now rewrite !U3.
    + intros x Hx. now apply minus_icon_fresh in Hx.
  - intros _. unfold class_on. rewrite elem_of_set_kids.
    + apply (class_after_open n hd (hs ++ "px") pn d Hnall).
    + right. split.
      * intros Hin.
        apply (inside_in_subtree n d3 i n (wf_NoDup _ Hwf3) Hi3) in Hin.
        exact (self_not_inside n d3 (wf_NoDup _ Hwf3) Hin).
      * intros Hin. apply minus_icon_fresh in Hin.
        pose proof (wf_fresh d3 n Hwf3) as Hf. rewrite A3 in Hf.
        specialize (Hf Hnall). lia.
Qed.

End AccordionFacts.

(* ================================================================== *)
(** * Accordion.astro: what the code does on two inputs *)
(* ================================================================== *)

Module AccordionRuns.
Import Dom Page Api Shape Samples.

(** C4.  [closeAccordionItem] on an open item whose panel is gone.
    With the panel taken out of the item the call drops the item's
    [is-active] class and then throws, the test for a removed panel
    never being reached; with the whole item taken out of the document
    the call goes through every write ([is-active] dropped, height set
    to 0, which the style keeps as "0px") and the test at its end finds
    the panel's parent. *)
Theorem C4_close_with_panel_gone :
  let gone := Accordion.closeAccordionItem 20 panel_removed_page in
  let out := Accordion.closeAccordionItem 20 item_removed_page in
  el_query 20 Accordion.panel_sel (dom panel_removed_page) = None
  /\ class_on 20 "is-active" (dom panel_removed_page) = true
  /\ fst gone = Throw TypeError
  /\ class_on 20 "is-active" (dom (snd gone)) = false
  /\ connected 23 (dom item_removed_page) = false
  /\ item_state 20 (dom item_removed_page) = (true, Some (Some "false"), Some None)
  /\ fst out = Ok tt
  /\ item_state 20 (dom (snd out)) = (false, Some (Some "false"), Some (Some "0px"))
  /\ fst (parentElement 23 (snd out)) = Ok (Some 20).
Proof. vm_compute. repeat split. Qed.

(** C6.  Two accordions on one page, the script loaded.  With the
    focus on the header of the last item of the first accordion, an
    ArrowDown keydown moves the focus to the header of the first item
    of the second accordion; with the focus on the header of the last
    item of the second accordion, it moves the focus into the first
    accordion. *)
Theorem C6_arrow_down_leaves_the_accordion :
  let press (header : nat) :=
    snd (Events.dispatch (Events.keydown (Some header) "ArrowDown" false)
           (snd (focus header two_accordions_loaded))) in
  accordionItems (vars two_accordions_loaded) = [20; 30; 40; 60; 70]
  /\ el_query_all 11 Accordion.item_sel (dom two_accordions_loaded) = [20; 30; 40]
  /\ el_query_all 51 Accordion.item_sel (dom two_accordions_loaded) = [60; 70]
  /\ activeElement (dom (press 41)) = Some 61
  /\ defaultPrevented (events (press 41)) = true
  /\ activeElement (dom (press 71)) = Some 41
  /\ defaultPrevented (events (press 71)) = true.
Proof. vm_compute. repeat split. Qed.

(** C9, as stated, fails for the accordion: after a view swap and the
    signal, the script's items are still those of the page it was
    loaded on. *)
Lemma C9_accordion_keeps_old_items :
  ~ (forall (p0 : page) (new_doc : node),
       let loaded := snd (Accordion.script p0) in
       let p := snd (Events.dispatch Events.after_swap
                       (Events.view_swap new_doc loaded)) in
       accordionItems (vars p) = doc_query_all Accordion.item_sel (dom p)).
Proof.
  intros H. specialize (H widgets_page next_view).
  vm_compute in H. discriminate.
Qed.

(** The same run, spelled out: the new item is not among the script's
    items, its header has no id, nothing listens on the new skip link,
    and the listener table is the one from before the swap. *)
Example swap_leaves_accordion_and_skip_link :
  let p := snd (Events.dispatch Events.after_swap
                  (Events.view_swap next_view widgets_loaded)) in
  accordionItems (vars p) = [20]
  /\ doc_query_all Accordion.item_sel (dom p) = [220]
  /\ attr_of 221 "id" (dom p) = None
  /\ skipLink (vars p) = None
  /\ listening (OnElement 203) Keydown (listeners (events p)) = []
  /\ listeners (events p) = listeners (events widgets_loaded).
Proof. vm_compute. repeat split. Qed.

End AccordionRuns.

(* ================================================================== *)
(** * The post-view-swap signal, script by script *)
(* ================================================================== *)

Module SwapFacts.
Import Dom Page Api Shape DomFacts KidsFacts ElemFacts QueryFacts.
Import DarkModeFacts ModalFacts SessionFacts.

Lemma target_eqb_eq a b : target_eqb a b = true -> a = b.
Proof.
  destruct a as [|x], b as [|y]; simpl; try discriminate; [reflexivity|].
  intros H. apply Nat.eqb_eq in H. now subst.
Qed.

Lemma evtype_eqb_eq a b : evtype_eqb a b = true -> a = b.
Proof. destruct a, b; simpl; try discriminate; reflexivity. Qed.

Lemma same_function_eq a b : same_function a b = true -> a = b.
Proof. destruct a, b; simpl; try discriminate; reflexivity. Qed.

Lemma add_listener_keeps t ty h sig e l :
  In l (listeners e) -> In l (listeners (add_listener t ty h sig e)).
Proof.
  intros H. unfold add_listener.
  destruct (signal_aborted sig e || already_listening t ty h (listeners e));
    [exact H|]. simpl. apply in_or_app. now left.
Qed.

(** After [addEventListener] without a signal the listener is there. *)
Lemma add_listener_there t ty h e :
  exists l, In l (listeners (add_listener t ty h None e))
            /\ l_target l = t /\ l_type l = ty /\ l_handler l = h.
Proof.
  unfold add_listener. simpl.
  destruct (already_listening t ty h (listeners e)) eqn:A.
  - unfold already_listening in A. apply existsb_exists in A as [l [Hl E]].
    apply andb_prop in E as [E E3]. apply andb_prop in E as [E1 E2].
    exists l. repeat split; [exact Hl | now apply target_eqb_eq
                            | now apply evtype_eqb_eq | now apply same_function_eq].
  - eexists. split; [simpl; apply in_or_app; right; now left|]. repeat split.
Qed.

(** What [addEventListener] can add. *)
Lemma add_listener_only t ty h sig e l :
  In l (listeners (add_listener t ty h sig e)) ->
  In l (listeners e) \/ (l_type l = ty /\ l_handler l = h).
Proof.
  unfold add_listener.
  destruct (signal_aborted sig e || already_listening t ty h (listeners e));
    [now left|]. simpl. intros H. apply in_app_or in H as [H|[<-|[]]]; [now left|].
  right. split; reflexivity.
Qed.

Lemma has_listener_keeps t ty h p p' :
  (forall l, In l (listeners (events p)) -> In l (listeners (events p'))) ->
  has_listener t ty h p -> has_listener t ty h p'.
Proof. intros H [l [Hl R]]. exists l. split; [now apply H | exact R]. Qed.

(** ** Modal: the binding loop over dialogs that all bind *)

Lemma bind_loop_ok (ms : list nat) : forall (p : page),
  (forall m, In m ms -> trigger_of m (dom p) <> None
                        /\ close_button_of m (dom p) <> None) ->
  exists p',
    forEach ms Modal.bindOne p = (Ok tt, p')
    /\ dom p' = dom p
    /\ vars p' = vars p
    /\ (forall l, In l (listeners (events p)) -> In l (listeners (events p')))
    /\ (forall m t b, In m ms ->
          trigger_of m (dom p) = Some t ->
          close_button_of m (dom p) = Some b ->
          has_listener (OnElement t) Click (ModalTriggerClick m) p'
          /\ has_listener (OnElement b) Click ModalCloseModal p').
Proof.
  induction ms as [|m r IHr]; intros p Hall.
  - exists p. repeat split; auto; contradiction.
  - destruct (Hall m (or_introl eq_refl)) as [Ht Hb].
    destruct (trigger_of m (dom p)) as [t|] eqn:T; [|now contradiction Ht].
    destruct (close_button_of m (dom p)) as [b|] eqn:B; [|now contradiction Hb].
    pose proof (bindOne_bound m p t b T B) as R.
    set (p1 := with_events _ p) in R.
    destruct (IHr p1) as [p' [Hrun [Hd [Hv [Hkeep Hhas]]]]].
    { intros m' Hm'. apply Hall. now right. }
    assert (K1 : forall l, In l (listeners (events p)) -> In l (listeners (events p1))).
    { intros l Hl. unfold p1. simpl. now apply add_listener_keeps, add_listener_keeps. }
    exists p'. split; [|split; [|split; [|split]]].
    + simpl. unfold bind. rewrite R. exact Hrun.
    + exact Hd.
    + exact Hv.
    + intros l Hl. apply Hkeep, K1, Hl.
    + intros m' t' b' [<-|Hm'] T' B'.
      * assert (t' = t) by congruence. assert (b' = b) by congruence. subst t' b'.
        split; apply (has_listener_keeps _ _ _ p1 p' Hkeep); unfold p1, has_listener; simpl.
        -- destruct (add_listener_there (OnElement t) Click (ModalTriggerClick m) (events p))
             as [l [Hl Rl]].
           exists l. split; [now apply add_listener_keeps | exact Rl].
        -- apply add_listener_there.
      * now apply Hhas.
Qed.

(** ** Accordion, SkipLinks: only key listeners *)

Lemma numberItem_events i x p : events (snd (Accordion.numberItem i x p)) = events p.
Proof.
  unfold Accordion.numberItem, querySelector_in, setAttribute.
  unfold deref, bind, ret, gets, update, throw, with_dom. cbn [dom events env vars].
  destruct (el_query x Accordion.header_sel (dom p)); cbn [dom events env vars fst snd];
    [|reflexivity].
  destruct (el_query x Accordion.panel_sel (dom p)); reflexivity.
Qed.

Lemma forEntries_events l : forall i p,
  events (snd (Accordion.forEntries i l Accordion.numberItem p)) = events p.
Proof.
  induction l as [|x r IHr]; intros i p; [reflexivity|].
  simpl. unfold bind.
  pose proof (numberItem_events i x p) as E.
  destruct (Accordion.numberItem i x p) as [[[]|e] p1]; simpl in E |- *.
  - now rewrite IHr.
  - exact E.
Qed.

Lemma accordion_script_listeners p l :
  In l (listeners (events (snd (Accordion.script p)))) ->
  In l (listeners (events p)) \/ l_type l = Keydown.
Proof.
  unfold Accordion.script, querySelectorAll, Accordion.set_accordionItems.
  unfold bind at 1 2. unfold gets, update. cbn [fst snd].
  set (p1 := with_vars _ p).
  unfold bind at 1.
  pose proof (forEntries_events (doc_query_all Accordion.item_sel (dom p)) 0 p1) as E.
  destruct (Accordion.forEntries 0 _ Accordion.numberItem p1) as [[[]|e] p2];
    simpl in E.
  - unfold addEventListener, Accordion.set_window_toggleAccordionItem,
      Accordion.set_window_onresize.
    unfold bind, update, with_events, with_vars. cbn [dom events env vars fst snd].
    intros H. apply add_listener_only in H as [H|[H _]]; [|now right].
    apply add_listener_only in H as [H|[H _]]; [|now right].
    left. now rewrite E in H.
  - cbn [snd]. rewrite E. now left.
Qed.

Lemma skip_script_listeners this p l :
  In l (listeners (events (snd (SkipLinks.top_level this p)))) ->
  In l (listeners (events p)) \/ l_type l = Keydown.
Proof.
  unfold SkipLinks.top_level, getAttribute, querySelector, SkipLinks.set_skipLink,
    addEventListener.
  unfold deref, bind, ret, gets, update, throw, with_events, with_vars.
  destruct this as [self|]; cbn [dom events env vars fst snd]; [|now left].
  destruct (css_ident _); cbn [dom events env vars fst snd]; [|now left].
  destruct (doc_query _ (dom p)); cbn [dom events env vars fst snd]; [|now left].
  intros H. apply add_listener_only in H as [H|[H _]]; [now left | now right].
Qed.

Lemma modal_script_registers p :
  fst (Modal.script p) = Ok tt ->
  has_listener OnDocument AfterSwap ModalAfterSwap (snd (Modal.script p)).
Proof.
  unfold Modal.script, querySelectorAll, Modal.set_modals, Modal.set_window_close,
    addEventListener.
  unfold bind, gets, update. cbn [fst snd].
  destruct (forEach _ Modal.bindOne _) as [[[]|e] p2]; cbn [fst snd];
    [|discriminate].
  intros _. unfold has_listener, with_events, with_vars. cbn [events listeners].
  apply add_listener_there.
Qed.

Lemma dark_script_registers p :
  fst (DarkMode.script p) = Ok tt ->
  has_listener OnDocument AfterSwap DarkModeAfterSwap (snd (DarkMode.script p)).
Proof.
  unfold DarkMode.script, localStorage_getItem, DarkMode.set_darkMode, querySelector,
    DarkMode.set_darkModeToggle, addEventListener.
  unfold deref, bind, ret, gets, update, throw. cbn [fst snd].
  destruct (DarkMode.applyDarkMode _) as [[[]|e] p2]; cbn [fst snd];
    [|discriminate].
  destruct (doc_query _ _) as [t|]; cbn [fst snd]; [|discriminate].
  intros _. unfold has_listener, with_events. cbn [events listeners].
  apply add_listener_there.
Qed.

(** C9, amended.  Of the four scripts, two listen for the
    post-view-swap signal.  The modal script, once it has run to its
    end, has its listener on the document; that listener finds the
    dialogs of the current document and, all of them having trigger and
    close button, puts a click listener opening the dialog on each
    trigger and one running [closeModal] on each close button.  The
    dark-mode script, once it has run to its end, has its
    listener on the document; that listener brings the body to the state
    the stored preference, then the system's preferred scheme decide,
    writes that state's [aria-pressed] and icon to the toggle found at
    load, in the document or out of it, keeps that toggle and adds no
    listener.  The accordion script and the skip-link script add no
    listener for the signal. *)
Theorem C9_signal_script_by_script :
  (forall p : page,
     fst (Modal.script p) = Ok tt ->
     has_listener OnDocument AfterSwap ModalAfterSwap (snd (Modal.script p)))
  /\ (forall p : page,
        (forall m, In m (doc_query_all [Just [Class "modal"]] (dom p)) ->
                   trigger_of m (dom p) <> None
                   /\ close_button_of m (dom p) <> None) ->
        let p' := snd (Events.run_handler ModalAfterSwap Events.after_swap p) in
        fst (Events.run_handler ModalAfterSwap Events.after_swap p) = Ok tt
        /\ forall m t b,
             In m (doc_query_all [Just [Class "modal"]] (dom p)) ->
             trigger_of m (dom p) = Some t ->
             close_button_of m (dom p) = Some b ->
             has_listener (OnElement t) Click (ModalTriggerClick m) p'
             /\ has_listener (OnElement b) Click ModalCloseModal p')
  /\ (forall p : page,
        fst (DarkMode.script p) = Ok tt ->
        has_listener OnDocument AfterSwap DarkModeAfterSwap (snd (DarkMode.script p)))
  /\ (forall (p : page) (b t : nat),
        wf_dom (dom p) = true ->
        body_of (dom p) = Some b ->
        darkModeToggle (vars p) = Some t ->
        In t (all_uids (dom p)) ->
        ~ In b (inside t (dom p)) ->
        let p' := snd (Events.run_handler DarkModeAfterSwap Events.after_swap p) in
        let on := resolved (truthy (assoc "darkMode" (storage (env p))))
                           (prefersDark (env p)) in
        fst (Events.run_handler DarkModeAfterSwap Events.after_swap p) = Ok tt
        /\ class_on b "darkmode" (dom p') = on
        /\ attr_of t "aria-pressed" (dom p') = Some (if on then "true" else "false")
        /\ option_map kids (node_of t (dom p'))
           = Some (if on then DarkMode.sun_icon (next_uid (dom p))
                   else DarkMode.moon_icon (next_uid (dom p)))
        /\ darkModeToggle (vars p') = Some t
        /\ events p' = events p)
  /\ (forall (p : page) (l : listener),
        In l (listeners (events (snd (Accordion.script p)))) ->
        l_type l = AfterSwap -> In l (listeners (events p)))
  /\ (forall (this : option nat) (p : page) (l : listener),
        In l (listeners (events (snd (SkipLinks.top_level this p)))) ->
        l_type l = AfterSwap -> In l (listeners (events p))).
Proof.
  split; [exact modal_script_registers|].
  split.
  { intros p Hall p'. subst p'. simpl Events.run_handler.
    destruct (bind_loop_ok (doc_query_all [Just [Class "modal"]] (dom p)) p Hall)
      as [q [Hrun [_ [Hv [_ Hhas]]]]].
    assert (R : Modal.afterSwap p = (Ok tt, q)).
    { unfold Modal.afterSwap, querySelectorAll, bind, gets. exact Hrun. }
    rewrite R. cbn [fst snd]. split; [reflexivity|]. exact Hhas. }
  split; [exact dark_script_registers|].
  split.
  { intros p b t Hwf Hb Ht Hin Hout p' on. subst p' on. simpl Events.run_handler.
    set (p1 := mkPage (dom p) (events p) (env p)
                 (mkVars (modals (vars p)) (trapFocusController (vars p))
                    (keydownController (vars p)) (accordionItems (vars p))
                    (truthy (assoc "darkMode" (storage (env p))))
                    (darkModeToggle (vars p)) (skipLink (vars p))
                    (window_close (vars p)) (window_toggleAccordionItem (vars p))
                    (window_onresize (vars p)))).
    destruct (applyDarkMode_run p1 b t Hwf Hb Ht Hin Hout)
      as [p2 [E [Hc [Ha [He [Hv [_ Hk]]]]]]].
    assert (R : DarkMode.afterSwap p = (Ok tt, p2)).
    { unfold DarkMode.afterSwap, localStorage_getItem, DarkMode.set_darkMode.
      unfold bind, gets, update, with_vars. cbn [fst snd].
      fold (truthy (assoc "darkMode" (storage (env p)))). fold p1. exact E. }
    rewrite R. cbn [fst snd]. split; [reflexivity|]. split; [exact Hc|].
    split; [exact Ha|]. split; [exact Hk|].
    split; [now rewrite Hv | exact He]. }
  split.
  - intros p l Hl Hty. apply accordion_script_listeners in Hl as [Hl|Hl];
      [exact Hl | congruence].
  - intros this p l Hl Hty. apply (skip_script_listeners this) in Hl as [Hl|Hl];
      [exact Hl | congruence].
Qed.

End SwapFacts.

(* ================================================================== *)
(** * The theorems at the sample pages *)
(* ================================================================== *)

Module Instances.
Import Dom Page Api Shape Samples.

Lemma C3_at_orphan_page :
  In 13 (doc_query_all [Just [Class "modal"]] (dom orphan_page))
  /\ attr_of 13 "aria-labelledby" (dom orphan_page) = Some "open-2"
  /\ exists x0, fst (Modal.script orphan_page) = Throw (Modal.trigger_not_found (Some x0)).
Proof.
  assert (H1 : forall m', In m' (doc_query_all [Just [Class "modal"]] (dom orphan_page)) ->
                 exists x' b, attr_of m' "aria-labelledby" (dom orphan_page) = Some x'
                              /\ css_ident x' = true
                              /\ close_button_of m' (dom orphan_page) = Some b).
  { intros m' Hm'. vm_compute in Hm'. destruct Hm' as [<-|[<-|[]]].
    - exists "open-1", 10. repeat split.
    - exists "open-2", 20. repeat split. }
  assert (H2 : In 13 (doc_query_all [Just [Class "modal"]] (dom orphan_page)))
    by (vm_compute; tauto).
  assert (H3 : attr_of 13 "aria-labelledby" (dom orphan_page) = Some "open-2")
    by reflexivity.
  assert (H4 : forall n, In n (preorder (doc (dom orphan_page))) ->
                 get_attr "id" (el n) <> Some "open-2").
  { intros n Hn. simpl in Hn.
    repeat (destruct Hn as [<-|Hn]; [vm_compute; discriminate|]). contradiction. }
  pose proof (ModalFacts.C3_missing_trigger_throws orphan_page 13 "open-2" H1 H2 H3 H4) as W.
  cbv zeta in W. destruct W as [pre [m0 [x0 [post [_ [_ [_ [_ [_ Ws]]]]]]]]].
  split; [exact H2|]. split; [exact H3|]. exists x0. now rewrite Ws.
Defined.

Lemma C5_at_dark_page :
  body_of (dom dark_page) = Some 1
  /\ doc_query [Just [Class "darkmode-toggle"]] (dom dark_page) = Some 2
  /\ prefersDark (env dark_page) = true
  /\ class_on 1 "darkmode" (dom (snd (DarkMode.script dark_page))) = true
  /\ storage (env (snd (DarkMode.script dark_page))) = [].
Proof.
  assert (H1 : wf_dom (dom dark_page) = true) by reflexivity.
  assert (H2 : body_of (dom dark_page) = Some 1) by reflexivity.
  assert (H3 : doc_query [Just [Class "darkmode-toggle"]] (dom dark_page) = Some 2)
    by reflexivity.
  assert (H4 : ~ In 1 (inside 2 (dom dark_page))) by (simpl; tauto).
  pose proof (DarkModeFacts.C5_dark_mode_initial_state dark_page 1 2 H1 H2 H3 H4) as W.
  cbv zeta in W. destruct W as [_ [_ [_ [W _]]]].
  destruct (W eq_refl eq_refl) as [Wa [Wb _]].
  repeat split; assumption.
Defined.

Lemma C7_at_two_accordions :
  In 20 (doc_query_all Accordion.item_sel (dom two_accordions_page))
  /\ In 30 (doc_query_all Accordion.item_sel (dom two_accordions_page))
  /\ item_state 30 (dom (snd (Accordion.openAccordionItem 20 two_accordions_page)))
     = item_state 30 (dom two_accordions_page)
  /\ class_on 20 "is-active"
       (dom (snd (Accordion.openAccordionItem 20 two_accordions_page))) = true.
Proof.
  assert (H1 : wf_dom (dom two_accordions_page) = true) by (vm_compute; reflexivity).
  assert (H2 : In 20 (doc_query_all Accordion.item_sel (dom two_accordions_page)))
    by (vm_compute; tauto).
  assert (H3 : In 30 (doc_query_all Accordion.item_sel (dom two_accordions_page)))
    by (vm_compute; tauto).
  assert (H4 : 20 <> 30) by lia.
  assert (H5 : disjoint (subtree_uids 20 (dom two_accordions_page))
                        (subtree_uids 30 (dom two_accordions_page)) = true)
    by (vm_compute; reflexivity).
  pose proof (AccordionFacts.C7_open_leaves_other_items
                two_accordions_page 20 30 H1 H2 H3 H4 H5) as W.
  cbv zeta in W. destruct W as [Ws Wc].
  split; [exact H2|]. split; [exact H3|]. split; [exact Ws|]. apply Wc. reflexivity.
Defined.

Lemma C9_at_modal_page :
  trigger_of 3 (dom modal_page) = Some 2
  /\ close_button_of 3 (dom modal_page) = Some 10
  /\ has_listener (OnElement 2) Click (ModalTriggerClick 3)
       (snd (Events.run_handler ModalAfterSwap Events.after_swap modal_page))
  /\ body_of (dom dark_swapped) = Some 101
  /\ darkModeToggle (vars dark_swapped) = Some 2
  /\ connected 2 (dom dark_swapped) = false
  /\ class_on 101 "darkmode"
       (dom (snd (Events.run_handler DarkModeAfterSwap Events.after_swap dark_swapped)))
     = true
  /\ attr_of 2 "aria-pressed"
       (dom (snd (Events.run_handler DarkModeAfterSwap Events.after_swap dark_swapped)))
     = Some "true".
Proof.
  assert (D1 : wf_dom (dom dark_swapped) = true) by (vm_compute; reflexivity).
  assert (D2 : body_of (dom dark_swapped) = Some 101) by reflexivity.
  assert (D3 : darkModeToggle (vars dark_swapped) = Some 2) by reflexivity.
  assert (D4 : In 2 (all_uids (dom dark_swapped))) by (vm_compute; tauto).
  assert (D5 : ~ In 101 (inside 2 (dom dark_swapped))).
  { vm_compute. intros H. repeat (destruct H as [H|H]; [discriminate H|]). exact H. }
  assert (H1 : forall m, In m (doc_query_all [Just [Class "modal"]] (dom modal_page)) ->
                 trigger_of m (dom modal_page) <> None
                 /\ close_button_of m (dom modal_page) <> None).
  { intros m Hm. vm_compute in Hm. destruct Hm as [<-|[]].
    split; vm_compute; discriminate. }
  assert (H2 : In 3 (doc_query_all [Just [Class "modal"]] (dom modal_page)))
    by (vm_compute; tauto).
  destruct SwapFacts.C9_signal_script_by_script as [_ [W [_ [V _]]]].
  specialize (W modal_page H1). cbv zeta in W. destruct W as [_ W].
  destruct (W 3 2 10 H2 eq_refl eq_refl) as [Wt _].
  specialize (V dark_swapped 101 2 D1 D2 D3 D4 D5). cbv zeta in V.
  destruct V as [_ [Vc [Va _]]].
  split; [reflexivity|]. split; [reflexivity|]. split; [exact Wt|].
  split; [exact D2|]. split; [exact D3|]. split; [reflexivity|].
  split; [exact Vc | exact Va].
Defined.

End Instances.
